(** * Minimal symbol tables (gdb/minsyms.c)

    A shallow embedding of the minimal symbol table routines of GDB:
    the collection buffer ([prim_record_minimal_symbol_and_info]), the
    installer ([install_minimal_symbols] with [compact_minimal_symbols]),
    the two lookups ([lookup_minimal_symbol], [lookup_minimal_symbol_by_pc])
    and the shared library trampoline resolution built on them.

    Conventions of the embedding:
    - a [char *] that holds a name is an [option string] ([None] is NULL);
    - a [CORE_ADDR] is an [N]: the code only compares addresses, unsigned;
    - an array of minimal symbols is a [list minimal_symbol], a pointer into
      it is an index, and [int] counters that never go negative are [nat];
      [int] arithmetic is exact, the counts of symbols being far below 2^30;
    - a pointer to a minimal symbol that is returned to the caller is
      modelled by the record it points to. *)

From Stdlib Require Import ZArith NArith String Ascii.
From stdpp Require Import base tactics list strings numbers sorting.

(** ** Data model (symtab.h, objfiles.h) *)

Inductive minimal_symbol_type : Set :=
  | mst_unknown
  | mst_text
  | mst_data
  | mst_bss
  | mst_abs
  | mst_solib_trampoline
  | mst_file_text
  | mst_file_data
  | mst_file_bss.

Inductive language : Set :=
  | language_unknown
  | language_auto
  | language_c
  | language_cplus
  | language_chill
  | language_m2.

Global Instance minimal_symbol_type_eq_dec : EqDecision minimal_symbol_type.
Proof. solve_decision. Defined.

Global Instance language_eq_dec : EqDecision language.
Proof. solve_decision. Defined.

Definition CORE_ADDR := N.

(** [struct minimal_symbol]: the general symbol information (name, value,
    language with its cached demangled name, section), the [info] pointer
    (an opaque address), the per-symbol source file kept on targets that
    define SOFUN_ADDRESS_MAYBE_MISSING, and the classification. *)
Record minimal_symbol : Set := mk_msymbol {
  SYMBOL_NAME : option string;
  SYMBOL_VALUE_ADDRESS : CORE_ADDR;
  SYMBOL_LANGUAGE : language;
  SYMBOL_CPLUS_DEMANGLED_NAME : option string;
  SYMBOL_SECTION : Z;
  MSYMBOL_INFO : N;
  filename : option string;
  MSYMBOL_TYPE : minimal_symbol_type
}.

Global Instance minimal_symbol_eq_dec : EqDecision minimal_symbol.
Proof. solve_decision. Defined.

Definition set_MSYMBOL_TYPE (m : minimal_symbol) (t : minimal_symbol_type) :
    minimal_symbol :=
  mk_msymbol (SYMBOL_NAME m) (SYMBOL_VALUE_ADDRESS m) (SYMBOL_LANGUAGE m)
    (SYMBOL_CPLUS_DEMANGLED_NAME m) (SYMBOL_SECTION m) (MSYMBOL_INFO m)
    (filename m) t.

Definition set_SYMBOL_NAME (m : minimal_symbol) (s : option string) :
    minimal_symbol :=
  mk_msymbol s (SYMBOL_VALUE_ADDRESS m) (SYMBOL_LANGUAGE m)
    (SYMBOL_CPLUS_DEMANGLED_NAME m) (SYMBOL_SECTION m) (MSYMBOL_INFO m)
    (filename m) (MSYMBOL_TYPE m).

Definition set_SYMBOL_LANGUAGE (m : minimal_symbol) (l : language) :
    minimal_symbol :=
  mk_msymbol (SYMBOL_NAME m) (SYMBOL_VALUE_ADDRESS m) l
    (SYMBOL_CPLUS_DEMANGLED_NAME m) (SYMBOL_SECTION m) (MSYMBOL_INFO m)
    (filename m) (MSYMBOL_TYPE m).

Definition set_SYMBOL_CPLUS_DEMANGLED_NAME (m : minimal_symbol)
    (d : option string) : minimal_symbol :=
  mk_msymbol (SYMBOL_NAME m) (SYMBOL_VALUE_ADDRESS m) (SYMBOL_LANGUAGE m)
    d (SYMBOL_SECTION m) (MSYMBOL_INFO m) (filename m) (MSYMBOL_TYPE m).

(** The "null symbol" that terminates a table: every field zeroed. *)
Definition null_symbol : minimal_symbol :=
  mk_msymbol None 0%N language_unknown None 0%Z 0%N None mst_unknown.

(** [STREQ (a, b)]: both strings are dereferenced, so a NULL operand has no
    meaning in C; the embedding answers [false] there and the results below
    only apply it to named symbols. *)
Definition STREQ (a b : option string) : bool :=
  match a, b with
  | Some x, Some y => bool_decide (x = y)
  | _, _ => false
  end.

(** [name[0]]: the first byte of a C string, NUL for the empty string. *)
Definition first_char (s : string) : ascii :=
  match s with
  | EmptyString => "000"%char
  | String c _ => c
  end.

(** [++name]: the pointer steps over the first byte.  On an empty string it
    would step over the terminator, to bytes the string does not determine;
    the embedding keeps the empty string there, and no result below is
    stated about that case. *)
Definition next_char (s : string) : string :=
  match s with
  | EmptyString => EmptyString
  | String _ rest => rest
  end.

(** [if (name[0] == c) ++name]. *)
Definition skip_leading_char (c : ascii) (s : string) : string :=
  if bool_decide (first_char s = c) then next_char s else s.

(** The symbol has a name, i.e. it is not a table terminator. *)
Definition named (m : minimal_symbol) : Prop := SYMBOL_NAME m ≠ None.

Global Instance named_dec m : Decision (named m).
Proof. unfold named. apply _. Defined.

(** ** Compaction of duplicates: [compact_minimal_symbols] *)

(** The test of the loop body: same address and [STREQ] names. *)
Definition same_address_and_name (a b : minimal_symbol) : bool :=
  bool_decide (SYMBOL_VALUE_ADDRESS a = SYMBOL_VALUE_ADDRESS b)
  && STREQ (SYMBOL_NAME a) (SYMBOL_NAME b).

(** The array being compacted in place with its two cursors. *)
Record compact_state : Set := mk_compact {
  cs_msymbol : list minimal_symbol;
  copyfrom : nat;
  copyto : nat
}.

(** One iteration of [while (copyfrom < msymbol + mcount - 1)]. *)
Definition compact_body (s : compact_state) : compact_state :=
  let a := cs_msymbol s in
  match a !! copyfrom s, a !! S (copyfrom s) with
  | Some cur, Some nxt =>
      if same_address_and_name cur nxt then
        mk_compact
          (if decide (MSYMBOL_TYPE nxt = mst_unknown)
           then <[S (copyfrom s) := set_MSYMBOL_TYPE nxt (MSYMBOL_TYPE cur)]> a
           else a)
          (S (copyfrom s)) (copyto s)
      else
        mk_compact (<[copyto s := cur]> a) (S (copyfrom s)) (S (copyto s))
  | _, _ => s
  end.

Fixpoint compact_loop (fuel mcount : nat) (s : compact_state) : compact_state :=
  match fuel with
  | 0 => s
  | S fuel' =>
      if decide (copyfrom s < mcount - 1)
      then compact_loop fuel' mcount (compact_body s)
      else s
  end.

(** [compact_minimal_symbols (msymbol, mcount)]: the array after the call
    and the returned count.  The loop runs at most [mcount - 1] times. *)
Definition compact_minimal_symbols (msymbol : list minimal_symbol)
    (mcount : nat) : list minimal_symbol * nat :=
  if decide (0 < mcount) then
    let s := compact_loop mcount mcount (mk_compact msymbol 0 0) in
    let a := cs_msymbol s in
    (match a !! copyfrom s with
     | Some cur => <[copyto s := cur]> a
     | None => a
     end, S (copyto s))
  else (msymbol, mcount).

(** *** What the pass computes, as a function on sequences

    Of two adjacent entries with the same address and name the FIRST one is
    compacted out and the SECOND one is left alone; when the one left alone
    has type [mst_unknown] it takes the type of the one compacted out. *)
Definition absorb (out kept : minimal_symbol) : minimal_symbol :=
  if decide (MSYMBOL_TYPE kept = mst_unknown)
  then set_MSYMBOL_TYPE kept (MSYMBOL_TYPE out)
  else kept.

Fixpoint merge_run (cur : minimal_symbol) (rest : list minimal_symbol) :
    list minimal_symbol :=
  match rest with
  | [] => [cur]
  | nxt :: rest' =>
      if same_address_and_name cur nxt
      then merge_run (absorb cur nxt) rest'
      else cur :: merge_run nxt rest'
  end.

Definition merge_adjacent (l : list minimal_symbol) : list minimal_symbol :=
  match l with
  | [] => []
  | cur :: rest => merge_run cur rest
  end.

(** The reading in which the EARLIER entry of a duplicate pair survives and
    takes the later one's type when its own is [mst_unknown]. *)
Definition absorb_into_earlier (kept dup : minimal_symbol) : minimal_symbol :=
  if decide (MSYMBOL_TYPE kept = mst_unknown)
  then set_MSYMBOL_TYPE kept (MSYMBOL_TYPE dup)
  else kept.

Fixpoint merge_run_keep_earlier (cur : minimal_symbol)
    (rest : list minimal_symbol) : list minimal_symbol :=
  match rest with
  | [] => [cur]
  | nxt :: rest' =>
      if same_address_and_name cur nxt
      then merge_run_keep_earlier (absorb_into_earlier cur nxt) rest'
      else cur :: merge_run_keep_earlier nxt rest'
  end.

Definition merge_adjacent_keep_earlier (l : list minimal_symbol) :
    list minimal_symbol :=
  match l with
  | [] => []
  | cur :: rest => merge_run_keep_earlier cur rest
  end.

(** The entries of the compacted table: [msymbol[0 .. result_count)]. *)
Definition compacted (msymbol : list minimal_symbol) (mcount : nat) :
    list minimal_symbol :=
  let '(a, n) := compact_minimal_symbols msymbol mcount in take n a.

(** Ascending addresses, every entry against every later one. *)
Definition address_le (a b : minimal_symbol) : Prop :=
  (SYMBOL_VALUE_ADDRESS a <= SYMBOL_VALUE_ADDRESS b)%N.

Definition sorted_by_address (l : list minimal_symbol) : Prop :=
  StronglySorted address_le l.

(** ** Sorting: [compare_minimal_symbols] and the C library's [qsort] *)

(** Signed result of an unsigned comparison of the two addresses.  (Here
    and below [a > b] is written [b < a], and [a >= b] as [b ≤ a].) *)
Definition compare_minimal_symbols (fn1 fn2 : minimal_symbol) : Z :=
  if decide (SYMBOL_VALUE_ADDRESS fn1 < SYMBOL_VALUE_ADDRESS fn2)%N then (-1)%Z
  else if decide (SYMBOL_VALUE_ADDRESS fn2 < SYMBOL_VALUE_ADDRESS fn1)%N then 1%Z
  else 0%Z.

(** [qsort] belongs to the C library, not to this file.  All that C promises
    is that the array is rearranged into ascending order of the comparison
    function; the order of elements that compare equal is unspecified.  It
    is taken as an interface with exactly these two laws. *)
Class Qsort := {
  qsort : (minimal_symbol → minimal_symbol → Z) →
          list minimal_symbol → list minimal_symbol;
  qsort_Permutation cmp l : qsort cmp l ≡ₚ l;
  qsort_ascending l :
    StronglySorted (λ a b, (compare_minimal_symbols a b ≤ 0)%Z)
                   (qsort compare_minimal_symbols l)
}.

(** A conforming [qsort]: insertion sort, which leaves elements that
    compare equal in the order they had. *)
Fixpoint insert_sorted (cmp : minimal_symbol → minimal_symbol → Z)
    (x : minimal_symbol) (l : list minimal_symbol) : list minimal_symbol :=
  match l with
  | [] => [x]
  | y :: rest =>
      if decide (cmp x y ≤ 0)%Z then x :: y :: rest
      else y :: insert_sorted cmp x rest
  end.

Definition insertion_sort (cmp : minimal_symbol → minimal_symbol → Z)
    (l : list minimal_symbol) : list minimal_symbol :=
  foldr (insert_sorted cmp) [] l.

Definition stable_qsort : Qsort.
Proof.
  refine (Build_Qsort insertion_sort _ _).
  - intros cmp l.
    assert (Hins : ∀ x k, insert_sorted cmp x k ≡ₚ x :: k).
    { intros x k. induction k as [|y k IH]; simpl; [done|].
      case_decide; [done|]. rewrite IH. apply Permutation_swap. }
    induction l as [|x l IH]; simpl; [done|]. by rewrite Hins, IH.
  - assert (Hle : ∀ a b, (compare_minimal_symbols a b ≤ 0)%Z ↔
                         (SYMBOL_VALUE_ADDRESS a ≤ SYMBOL_VALUE_ADDRESS b)%N).
    { intros a b. unfold compare_minimal_symbols.
      repeat case_decide; split; intros; lia. }
    assert (Hins : ∀ x k, insert_sorted compare_minimal_symbols x k ≡ₚ x :: k).
    { intros x k. induction k as [|y k IH]; simpl; [done|].
      case_decide; [done|]. rewrite IH. apply Permutation_swap. }
    intros l. induction l as [|x l IH]; simpl; [constructor|].
    induction IH as [|y k Hk IHk Hy]; simpl; [repeat constructor|].
    case_decide as Hxy.
    + constructor; [by constructor|]. constructor; [done|].
      eapply Forall_impl; [exact Hy|]. intros z.
      rewrite !Hle in *. lia.
    + constructor; [done|]. rewrite (Hins x k). constructor; [|done].
      rewrite Hle in *. lia.
Defined.

(** ** Object files *)

(** Of a BFD only the leading character of its symbols is consulted
    ([bfd_get_symbol_leading_char], NUL when the target has none). *)
Record bfd : Set := mk_bfd {
  bfd_get_symbol_leading_char : ascii
}.

(** [struct objfile], the fields used here.  [msymbols] is NULL or the
    table: [minimal_symbol_count] entries followed by the null symbol. *)
Record objfile : Set := mk_objfile {
  obfd : option bfd;
  msymbols : option (list minimal_symbol);
  minimal_symbol_count : nat
}.

(** [msymbol[i]] for an [int] index.  An index outside the array has no
    meaning in C; the embedding reads the null symbol there. *)
Definition msym_at (msymbol : list minimal_symbol) (i : Z) : minimal_symbol :=
  if decide (0 ≤ i)%Z then default null_symbol (msymbol !! Z.to_nat i)
  else null_symbol.

(** ** The collection buffer *)

Definition BUNCH_SIZE : nat := 127.

(** The three file-scope variables.  [msym_bunch] is the chain of bunches,
    the one being filled first; a bunch is given by the slots of its
    [contents] written so far, in slot order. *)
Record collection : Set := mk_collection {
  msym_bunch : list (list minimal_symbol);
  msym_bunch_index : nat;
  msym_count : nat
}.

Definition init_minimal_symbol_collection : collection :=
  mk_collection [] BUNCH_SIZE 0.

(** [contents[i] = m] on a bunch. *)
Definition store_slot (contents : list minimal_symbol) (i : nat)
    (m : minimal_symbol) : list minimal_symbol :=
  take i contents ++ m :: drop (S i) contents.

(** [STREQN (a, b, n)]: [strncmp (a, b, n) == 0]. *)
Definition STREQN (a b : string) (n : nat) : bool :=
  bool_decide (substring 0 n a = substring 0 n b).

(** A request to record one symbol: the arguments of
    [prim_record_minimal_symbol_and_info] but for the object file. *)
Record msym_request : Set := mk_request {
  req_name : string;
  req_address : CORE_ADDR;
  req_ms_type : minimal_symbol_type;
  req_info : N;
  req_section : Z
}.

(** The slot as [prim_record_minimal_symbol_and_info] fills it.  The
    [filename] member is not assigned by this file; readers for targets
    that have it set it through the returned pointer. *)
Definition fill_slot (r : msym_request) : minimal_symbol :=
  mk_msymbol (Some (req_name r)) (req_address r) language_unknown None
    (req_section r) (req_info r) None (req_ms_type r).

(** What the build and the rest of GDB fix for this file: the C++
    demangler, the two marker names (macros of a header), whether
    SOFUN_ADDRESS_MAYBE_MISSING is defined, and the main object file (a
    global variable that none of these routines assigns). *)
Class Gdb := {
  cplus_demangle : string → option string;
  GCC_COMPILED_FLAG_SYMBOL : string;
  GCC2_COMPILED_FLAG_SYMBOL : string;
  SOFUN_ADDRESS_MAYBE_MISSING : bool;
  symfile_objfile : option objfile
}.

Section Minsyms.

Context {libc : Qsort} {gdb : Gdb}.

Definition get_symbol_leading_char (abfd : option bfd) : ascii :=
  match abfd with
  | Some b => bfd_get_symbol_leading_char b
  | None =>
      match symfile_objfile with
      | Some o =>
          match obfd o with
          | Some b => bfd_get_symbol_leading_char b
          | None => "000"%char
          end
      | None => "000"%char
      end
  end.

(** The test that makes [prim_record_minimal_symbol_and_info] return at
    once: a [mst_file_text] symbol named like a compiler marker. *)
Definition is_compiler_marker (name : string) (ms_type : minimal_symbol_type)
    (obj : objfile) : bool :=
  bool_decide (ms_type = mst_file_text)
  && ((bool_decide (first_char name = "g"%char)
       && (bool_decide (name = GCC_COMPILED_FLAG_SYMBOL)
           || bool_decide (name = GCC2_COMPILED_FLAG_SYMBOL)))
      || STREQN (skip_leading_char (get_symbol_leading_char (obfd obj)) name)
                "__gnu_compiled" 14).

(** [prim_record_minimal_symbol_and_info]: the collection after the call
    and the symbol created, if any.  With no bunch to write to (which
    [init_minimal_symbol_collection] excludes) nothing is stored. *)
Definition prim_record_minimal_symbol_and_info (r : msym_request)
    (obj : objfile) (st : collection) : collection * option minimal_symbol :=
  if is_compiler_marker (req_name r) (req_ms_type r) obj then (st, None)
  else
    let st1 :=
      if decide (msym_bunch_index st = BUNCH_SIZE)
      then mk_collection ([] :: msym_bunch st) 0 (msym_count st)
      else st in
    match msym_bunch st1 with
    | [] => (st1, None)
    | contents :: next =>
        let msymbol := fill_slot r in
        (mk_collection (store_slot contents (msym_bunch_index st1) msymbol :: next)
           (S (msym_bunch_index st1)) (S (msym_count st1)),
         Some msymbol)
    end.

(** [prim_record_minimal_symbol]: the section follows from the type. *)
Definition prim_record_minimal_symbol (name : string) (address : CORE_ADDR)
    (ms_type : minimal_symbol_type) (SECT_OFF_TEXT SECT_OFF_DATA SECT_OFF_BSS : Z)
    (obj : objfile) (st : collection) : collection :=
  let section :=
    match ms_type with
    | mst_text | mst_file_text | mst_solib_trampoline => SECT_OFF_TEXT
    | mst_data | mst_file_data => SECT_OFF_DATA
    | mst_bss | mst_file_bss => SECT_OFF_BSS
    | _ => (-1)%Z
    end in
  fst (prim_record_minimal_symbol_and_info
         (mk_request name address ms_type 0%N section) obj st).

(** A load: the calls of the reader, one per symbol, in order. *)
Definition record_all (rs : list msym_request) (obj : objfile)
    (st : collection) : collection :=
  foldl (λ st r, fst (prim_record_minimal_symbol_and_info r obj st)) st rs.

(** ** Installation: [install_minimal_symbols] *)

(** The body of the copy loop for one buffered symbol. *)
Definition copy_in (leading_char : ascii) (m : minimal_symbol) : minimal_symbol :=
  let m1 := set_SYMBOL_LANGUAGE m language_auto in
  match SYMBOL_NAME m1 with
  | Some s =>
      if bool_decide (first_char s = leading_char)
      then set_SYMBOL_NAME m1 (Some (next_char s))
      else m1
  | None => m1
  end.

(** The walk over the chain of bunches: [index] slots of the first bunch,
    then [BUNCH_SIZE] slots of every following one. *)
Fixpoint copy_bunches (leading_char : ascii) (bunch : list (list minimal_symbol))
    (index : nat) : list minimal_symbol :=
  match bunch with
  | [] => []
  | contents :: next =>
      map (copy_in leading_char) (take index contents)
      ++ copy_bunches leading_char next BUNCH_SIZE
  end.

(** The contiguous array that is handed to [qsort]. *)
Definition gather_minimal_symbols (obj : objfile) (st : collection) :
    list minimal_symbol :=
  match msymbols obj with
  | Some old => take (minimal_symbol_count obj) old
  | None => []
  end
  ++ copy_bunches (get_symbol_leading_char (obfd obj))
       (msym_bunch st) (msym_bunch_index st).

(** Modelled from the spec: the macro SYMBOL_INIT_DEMANGLED_NAME of
    symtab.h.  A symbol tagged [language_auto] is demangled once: on success
    it becomes a C++ symbol with the demangled name cached, on failure its
    language becomes [language_unknown]; other symbols are left alone. *)
Definition SYMBOL_INIT_DEMANGLED_NAME (m : minimal_symbol) : minimal_symbol :=
  if decide (SYMBOL_LANGUAGE m = language_auto) then
    match SYMBOL_NAME m ≫= cplus_demangle with
    | Some demangled =>
        set_SYMBOL_CPLUS_DEMANGLED_NAME
          (set_SYMBOL_LANGUAGE m language_cplus) (Some demangled)
    | None =>
        set_SYMBOL_CPLUS_DEMANGLED_NAME
          (set_SYMBOL_LANGUAGE m language_unknown) None
    end
  else m.

(** Modelled from the spec: the macro SYMBOL_INIT_LANGUAGE_SPECIFIC of
    symtab.h, which tags the symbol with the language given and leaves it
    without a cached demangled name. *)
Definition SYMBOL_INIT_LANGUAGE_SPECIFIC (m : minimal_symbol) (l : language) :
    minimal_symbol :=
  set_SYMBOL_CPLUS_DEMANGLED_NAME (set_SYMBOL_LANGUAGE m l) None.

(** The stores that turn [msymbols[mcount]] into the terminator: the name,
    the address, the info and the type are assigned, then the language.
    The section and the file name of the slot are not assigned: they stay
    what the slot held. *)
Definition null_terminator (slot : minimal_symbol) : minimal_symbol :=
  SYMBOL_INIT_LANGUAGE_SPECIFIC
    (mk_msymbol None 0%N (SYMBOL_LANGUAGE slot) (SYMBOL_CPLUS_DEMANGLED_NAME slot)
       (SYMBOL_SECTION slot) 0%N (filename slot) mst_unknown)
    language_unknown.

(** [install_minimal_symbols]: the object file and the collection
    variables after the call.  The slot [msymbols[mcount]] that becomes the
    terminator is the entry that the compaction left behind there, if it
    compacted anything out; otherwise it is the slot allocated beyond the
    gathered symbols, which nothing has written yet: it is read as zeroed,
    as [msym_at] reads what lies outside an array. *)
Definition install_minimal_symbols (obj : objfile) (st : collection) :
    objfile * collection :=
  if decide (0 < msym_count st) then
    let gathered := gather_minimal_symbols obj st in
    let sorted := qsort compare_minimal_symbols gathered in
    let '(a, mcount) := compact_minimal_symbols sorted (length sorted) in
    let table :=
      (SYMBOL_INIT_DEMANGLED_NAME <$> take mcount a)
      ++ [null_terminator (default null_symbol (a !! mcount))] in
    (mk_objfile (obfd obj) (Some table) mcount,
     mk_collection (msym_bunch st)
       (match msym_bunch st with [] => msym_bunch_index st | _ => BUNCH_SIZE end)
       (msym_count st))
  else (obj, st).

(** The entries of an object file's table that its count covers. *)
Definition table_entries (o : objfile) : list minimal_symbol :=
  match msymbols o with
  | Some t => take (minimal_symbol_count o) t
  | None => []
  end.

(** ** Lookup by address: [lookup_minimal_symbol_by_pc] *)

(** One iteration of [while (SYMBOL_VALUE_ADDRESS (&msymbol[hi]) > pc)];
    [/] on [int] truncates towards zero. *)
Definition pc_search_body (msymbol : list minimal_symbol) (pc : CORE_ADDR)
    (lohi : Z * Z) : Z * Z :=
  let '(lo, hi) := lohi in
  let new := ((lo + hi) ÷ 2)%Z in
  if bool_decide (pc ≤ SYMBOL_VALUE_ADDRESS (msym_at msymbol new))%N
     || bool_decide (lo = new)
  then (lo, new)
  else (new, hi).

Fixpoint pc_search_loop (fuel : nat) (msymbol : list minimal_symbol)
    (pc : CORE_ADDR) (lohi : Z * Z) : Z * Z :=
  match fuel with
  | 0 => lohi
  | S fuel' =>
      if bool_decide (pc < SYMBOL_VALUE_ADDRESS (msym_at msymbol (snd lohi)))%N
      then pc_search_loop fuel' msymbol pc (pc_search_body msymbol pc lohi)
      else lohi
  end.

(** [while (hi >= 0 && msymbol[hi].type == mst_abs) --hi;] *)
Fixpoint skip_absolute (fuel : nat) (msymbol : list minimal_symbol) (hi : Z) : Z :=
  match fuel with
  | 0 => hi
  | S fuel' =>
      if bool_decide (0 ≤ hi)%Z
         && bool_decide (MSYMBOL_TYPE (msym_at msymbol hi) = mst_abs)
      then skip_absolute fuel' msymbol (hi - 1)%Z
      else hi
  end.

(** The index [hi] that the loop body settles on in one object file's
    table, when the body gets that far.  The search loop shortens a
    non-empty interval at every turn and the backward walk stops at -1 at
    the latest, so the fuel given suffices. *)
Definition pc_index (pc : CORE_ADDR) (msymbol : list minimal_symbol)
    (count : nat) : option Z :=
  let lo := 0%Z in
  let hi := (Z.of_nat count - 1)%Z in
  if bool_decide (SYMBOL_VALUE_ADDRESS (msym_at msymbol lo) ≤ pc)%N then
    let '(_, hi) := pc_search_loop (S count) msymbol pc (lo, hi) in
    Some (skip_absolute (S count) msymbol hi)
  else None.

(** The body of the loop over the object files: [best_symbol] after it. *)
Definition pc_objfile (pc : CORE_ADDR) (best_symbol : option minimal_symbol)
    (o : objfile) : option minimal_symbol :=
  match msymbols o with
  | Some msymbol =>
      match pc_index pc msymbol (minimal_symbol_count o) with
      | Some hi =>
          if bool_decide (0 ≤ hi)%Z
             && match best_symbol with
                | None => true
                | Some best =>
                    bool_decide (SYMBOL_VALUE_ADDRESS best
                                 < SYMBOL_VALUE_ADDRESS (msym_at msymbol hi))%N
                end
          then Some (msym_at msymbol hi)
          else best_symbol
      | None => best_symbol
      end
  | None => best_symbol
  end.

Definition lookup_minimal_symbol_by_pc (object_files : list objfile)
    (pc : CORE_ADDR) : option minimal_symbol :=
  foldl (pc_objfile pc) None object_files.

(** What one object file offers for [pc]: the body run with no best symbol
    yet. *)
Definition pc_candidate (pc : CORE_ADDR) (o : objfile) : option minimal_symbol :=
  pc_objfile pc None o.

(** ** Lookup by name: [lookup_minimal_symbol] *)

(** Modelled from the spec: the macro SYMBOL_MATCHES_NAME of symtab.h, the
    byte-for-byte comparison of the symbol's name with the name sought. *)
Definition SYMBOL_MATCHES_NAME (m : minimal_symbol) (name : string) : bool :=
  STREQ (SYMBOL_NAME m) (Some name).

(** [strrchr (sfile, '/')] followed by [p + 1]: what follows the last
    slash, if there is a slash. *)
Fixpoint after_last_slash (s : string) : option string :=
  match s with
  | EmptyString => None
  | String c rest =>
      match after_last_slash rest with
      | Some t => Some t
      | None => if bool_decide (c = "/"%char) then Some rest else None
      end
  end.

(** The three candidates that the scan maintains. *)
Record name_search : Set := mk_search {
  found_symbol : option minimal_symbol;
  found_file_symbol : option minimal_symbol;
  trampoline_symbol : option minimal_symbol
}.

(** Whether a file-local match is recorded: always, unless the target
    tracks source files and a source file was asked for. *)
Definition file_symbol_wanted (sfile : option string) (m : minimal_symbol) : bool :=
  if SOFUN_ADDRESS_MAYBE_MISSING
  then match sfile with
       | None => true
       | Some f => STREQ (filename m) (Some f)
       end
  else true.

(** The body of the inner loop. *)
Definition name_step (name : string) (sfile : option string) (s : name_search)
    (msymbol : minimal_symbol) : name_search :=
  if SYMBOL_MATCHES_NAME msymbol name then
    match MSYMBOL_TYPE msymbol with
    | mst_file_text | mst_file_data | mst_file_bss =>
        if file_symbol_wanted sfile msymbol
        then mk_search (found_symbol s) (Some msymbol) (trampoline_symbol s)
        else s
    | mst_solib_trampoline =>
        match trampoline_symbol s with
        | None => mk_search (found_symbol s) (found_file_symbol s) (Some msymbol)
        | Some _ => s
        end
    | _ => mk_search (Some msymbol) (found_file_symbol s) (trampoline_symbol s)
    end
  else s.

(** The inner loop: it runs while the symbol has a name and no global
    symbol has been found.  (The end of the list is the end of the memory
    that the embedding describes; a table ends in a null symbol before.) *)
Fixpoint name_scan_table (name : string) (sfile : option string)
    (msymbol : list minimal_symbol) (s : name_search) : name_search :=
  match msymbol with
  | [] => s
  | m :: rest =>
      if bool_decide (SYMBOL_NAME m ≠ None) && bool_decide (found_symbol s = None)
      then name_scan_table name sfile rest (name_step name sfile s m)
      else s
  end.

(** The outer loop.  An object file is identified by its place in the chain
    [object_files]: [objf] is NULL or that place. *)
Fixpoint name_scan_objfiles (name : string) (sfile : option string)
    (objf : option nat) (here : nat) (object_files : list objfile)
    (s : name_search) : name_search :=
  match object_files with
  | [] => s
  | o :: next =>
      if bool_decide (found_symbol s = None) then
        name_scan_objfiles name sfile objf (S here) next
          (if bool_decide (objf = None) || bool_decide (objf = Some here)
           then match msymbols o with
                | Some msymbol => name_scan_table name sfile msymbol s
                | None => s
                end
           else s)
      else s
  end.

Definition lookup_minimal_symbol (object_files : list objfile) (name : string)
    (sfile : option string) (objf : option nat) : option minimal_symbol :=
  let sfile :=
    if SOFUN_ADDRESS_MAYBE_MISSING
    then match sfile with
         | Some f => Some (default f (after_last_slash f))
         | None => None
         end
    else sfile in
  let s := name_scan_objfiles name sfile objf 0 object_files
             (mk_search None None None) in
  match found_symbol s with
  | Some m => Some m
  | None =>
      match found_file_symbol s with
      | Some m => Some m
      | None => trampoline_symbol s
      end
  end.

(** *** The order of the scan, and the three kinds of match *)

(** The symbols of a table up to the first one without a name. *)
Fixpoint named_prefix (msymbol : list minimal_symbol) : list minimal_symbol :=
  match msymbol with
  | [] => []
  | m :: rest => if decide (named m) then m :: named_prefix rest else []
  end.

(** Registry order, then table order, over the object files selected. *)
Fixpoint scan_order (objf : option nat) (here : nat)
    (object_files : list objfile) : list minimal_symbol :=
  match object_files with
  | [] => []
  | o :: next =>
      (if bool_decide (objf = None) || bool_decide (objf = Some here)
       then match msymbols o with
            | Some msymbol => named_prefix msymbol
            | None => []
            end
       else [])
      ++ scan_order objf (S here) next
  end.

Definition is_file_local_type (t : minimal_symbol_type) : bool :=
  match t with
  | mst_file_text | mst_file_data | mst_file_bss => true
  | _ => false
  end.

Definition is_global_type (t : minimal_symbol_type) : bool :=
  match t with
  | mst_unknown | mst_text | mst_data | mst_bss | mst_abs => true
  | _ => false
  end.

Definition global_match (name : string) (m : minimal_symbol) : bool :=
  SYMBOL_MATCHES_NAME m name && is_global_type (MSYMBOL_TYPE m).

Definition file_local_match (name : string) (sfile : option string)
    (m : minimal_symbol) : bool :=
  SYMBOL_MATCHES_NAME m name && is_file_local_type (MSYMBOL_TYPE m)
  && file_symbol_wanted sfile m.

Definition trampoline_match (name : string) (m : minimal_symbol) : bool :=
  SYMBOL_MATCHES_NAME m name
  && bool_decide (MSYMBOL_TYPE m = mst_solib_trampoline).

(** The source file that the scan compares with: the base name on targets
    that track source files. *)
Definition effective_sfile (sfile : option string) : option string :=
  if SOFUN_ADDRESS_MAYBE_MISSING
  then match sfile with
       | Some f => Some (default f (after_last_slash f))
       | None => None
       end
  else sfile.

(** ** Shared library trampolines *)

Definition lookup_solib_trampoline_symbol_by_pc (object_files : list objfile)
    (pc : CORE_ADDR) : option minimal_symbol :=
  match lookup_minimal_symbol_by_pc object_files pc with
  | Some msymbol =>
      if decide (MSYMBOL_TYPE msymbol = mst_solib_trampoline)
      then Some msymbol
      else None
  | None => None
  end.

(** Modelled from the spec: the iteration macro ALL_MSYMBOLS of objfiles.h,
    which visits every object file that has a table and, in it, every symbol
    up to the null symbol.  The two functions below are that iteration with
    the body of [find_solib_trampoline_target]; [Some] is its [return]. *)
Fixpoint text_target_in_table (tname : option string)
    (msymbol : list minimal_symbol) : option CORE_ADDR :=
  match msymbol with
  | [] => None
  | m :: rest =>
      if decide (named m) then
        if bool_decide (MSYMBOL_TYPE m = mst_text) && STREQ (SYMBOL_NAME m) tname
        then Some (SYMBOL_VALUE_ADDRESS m)
        else text_target_in_table tname rest
      else None
  end.

Fixpoint text_target (tname : option string) (object_files : list objfile) :
    option CORE_ADDR :=
  match object_files with
  | [] => None
  | o :: next =>
      match msymbols o ≫= text_target_in_table tname with
      | Some a => Some a
      | None => text_target tname next
      end
  end.

(** [find_solib_trampoline_target]: 0 stands for "not found". *)
Definition find_solib_trampoline_target (object_files : list objfile)
    (pc : CORE_ADDR) : CORE_ADDR :=
  match lookup_solib_trampoline_symbol_by_pc object_files pc with
  | Some tsymbol => default 0%N (text_target (SYMBOL_NAME tsymbol) object_files)
  | None => 0%N
  end.

(** ** Vocabulary of the statements *)

(** The entries that [install_minimal_symbols] leaves in the table, before
    the demangling pass: gathered, sorted, adjacent duplicates merged. *)
Definition installed_entries (obj : objfile) (st : collection) :
    list minimal_symbol :=
  merge_adjacent (qsort compare_minimal_symbols (gather_minimal_symbols obj st)).

(** What the slot right after the compacted entries holds when the
    terminator is written into it. *)
Definition stale_slot (obj : objfile) (st : collection) : minimal_symbol :=
  let sorted := qsort compare_minimal_symbols (gather_minimal_symbols obj st) in
  let '(a, mcount) := compact_minimal_symbols sorted (length sorted) in
  default null_symbol (a !! mcount).

(** An object file whose table, if it has one, has at least one entry, is
    as long as its count says and is in ascending order of address. *)
Definition searchable (o : objfile) : Prop :=
  match msymbols o with
  | Some t =>
      0 < minimal_symbol_count o ≤ length t ∧
      sorted_by_address (take (minimal_symbol_count o) t)
  | None => True
  end.

(** Entry [h] of [l] has the greatest address that does not exceed [pc]. *)
Definition greatest_at_most (pc : CORE_ADDR) (l : list minimal_symbol)
    (h : nat) : Prop :=
  ∃ m, l !! h = Some m ∧ (SYMBOL_VALUE_ADDRESS m ≤ pc)%N ∧
       ∀ x, x ∈ l → (SYMBOL_VALUE_ADDRESS x ≤ pc)%N →
            (SYMBOL_VALUE_ADDRESS x ≤ SYMBOL_VALUE_ADDRESS m)%N.

(** The last entry of [l] that is not of type [mst_abs]. *)
Definition last_not_absolute (l : list minimal_symbol) : option minimal_symbol :=
  last (filter (λ m, MSYMBOL_TYPE m ≠ mst_abs) l).

(** The address of the first entry of a table, if any. *)
Definition lowest_address (o : objfile) : option CORE_ADDR :=
  SYMBOL_VALUE_ADDRESS <$> head (table_entries o).

(** The reduction over object files: a candidate replaces the best symbol
    so far only if its address is strictly greater. *)
Definition better_symbol (best cand : option minimal_symbol) :
    option minimal_symbol :=
  match cand with
  | None => best
  | Some c =>
      match best with
      | None => Some c
      | Some b =>
          if bool_decide (SYMBOL_VALUE_ADDRESS b < SYMBOL_VALUE_ADDRESS c)%N
          then Some c else Some b
      end
  end.

(** One turn of the inner loop of [lookup_minimal_symbol] on a named
    symbol: the body runs only while no global symbol has been found. *)
Definition name_step_guarded (name : string) (sfile : option string)
    (s : name_search) (m : minimal_symbol) : name_search :=
  if bool_decide (found_symbol s = None) then name_step name sfile s m else s.

(** What [lookup_minimal_symbol] returns from the three candidates. *)
Definition name_result (s : name_search) : option minimal_symbol :=
  match found_symbol s with
  | Some m => Some m
  | None =>
      match found_file_symbol s with
      | Some m => Some m
      | None => trampoline_symbol s
      end
  end.

(** The test in the body of [find_solib_trampoline_target]: a text symbol
    whose name is [STREQ] to the trampoline's. *)
Definition text_match (tname : option string) (m : minimal_symbol) : bool :=
  bool_decide (MSYMBOL_TYPE m = mst_text) && STREQ (SYMBOL_NAME m) tname.

(** The address of the first symbol of a sequence that passes this test. *)
Fixpoint first_text_address (tname : option string) (l : list minimal_symbol) :
    option CORE_ADDR :=
  match l with
  | [] => None
  | m :: rest =>
      if text_match tname m then Some (SYMBOL_VALUE_ADDRESS m)
      else first_text_address tname rest
  end.

(** A name that is a compiler marker: one of the two flag symbols, or
    anything that starts with "__gnu_compiled". *)
Definition marker_name (s : string) : Prop :=
  s = GCC_COMPILED_FLAG_SYMBOL ∨ s = GCC2_COMPILED_FLAG_SYMBOL ∨
  String.prefix "__gnu_compiled" s = true.

(** The requests of a load that are recorded, i.e. not filtered out. *)
Definition accepted (obj : objfile) (rs : list msym_request) :
    list msym_request :=
  filter (λ r, is_compiler_marker (req_name r) (req_ms_type r) obj = false) rs.

(** The collection holds exactly the symbols [recorded], in the order they
    were recorded: the chain of bunches read from its far end gives them
    back, the bunch being filled holds [msym_bunch_index] of them and every
    other bunch is full. *)
Definition filled_by (recorded : list minimal_symbol) (st : collection) : Prop :=
  concat (reverse (msym_bunch st)) = recorded ∧
  msym_count st = length recorded ∧
  msym_bunch_index st
  = match msym_bunch st with b :: _ => length b | [] => BUNCH_SIZE end ∧
  (∀ b, b ∈ msym_bunch st → 0 < length b ≤ BUNCH_SIZE) ∧
  (∀ b, b ∈ tail (msym_bunch st) → length b = BUNCH_SIZE).

(** ** The remaining routines of the file *)

(** [discard_minimal_symbols]: the loop frees one bunch per turn until
    [msym_bunch] is NULL; the two counters are not touched. *)
Fixpoint free_bunches (bunch : list (list minimal_symbol)) :
    list (list minimal_symbol) :=
  match bunch with
  | [] => []
  | _ :: next => free_bunches next
  end.

Definition discard_minimal_symbols (st : collection) : collection :=
  mk_collection (free_bunches (msym_bunch st)) (msym_bunch_index st)
    (msym_count st).

(** [msymbols_sort]: [qsort] on the [minimal_symbol_count] entries of the
    table, in place; what follows them in the array is out of its reach. *)
Definition msymbols_sort (obj : objfile) : objfile :=
  mk_objfile (obfd obj)
    ((λ t, qsort compare_minimal_symbols (take (minimal_symbol_count obj) t)
           ++ drop (minimal_symbol_count obj) t) <$> msymbols obj)
    (minimal_symbol_count obj).

(** [strchr (namestring, ':')] and the copy of the [n = p - namestring]
    bytes before it: the text before the first colon, if there is a colon. *)
Fixpoint before_colon (s : string) : option string :=
  match s with
  | EmptyString => None
  | String c rest =>
      if bool_decide (c = ":"%char) then Some EmptyString
      else String c <$> before_colon rest
  end.

(** [find_stab_function_addr] (compiled when SOFUN_ADDRESS_MAYBE_MISSING is
    defined).  Without a colon [p] is set to [namestring] itself, so that
    [n] is 0 and the name looked up is the empty string.  [pst_filename]
    is [pst->filename]. *)
Definition find_stab_function_addr (object_files : list objfile)
    (namestring : string) (pst_filename : option string) (objf : option nat) :
    CORE_ADDR :=
  let p := default EmptyString (before_colon namestring) in
  match lookup_minimal_symbol object_files p pst_filename objf with
  | None => 0%N
  | Some msym => SYMBOL_VALUE_ADDRESS msym
  end.

(** *** More vocabulary *)

(** No entry of [l] is followed by one that the compaction pass takes for
    its duplicate. *)
Definition no_adjacent_duplicate (l : list minimal_symbol) : Prop :=
  ∀ i a b, l !! i = Some a → l !! S i = Some b →
           same_address_and_name a b = false.

(** The type that a run of duplicates hands on: a type that is not
    [mst_unknown] replaces the one carried so far. *)
Definition carry_type (carried next : minimal_symbol_type) : minimal_symbol_type :=
  if decide (next = mst_unknown) then carried else next.

(** The last type of [ts] that is not [mst_unknown], if any is. *)
Definition last_known_type (ts : list minimal_symbol_type) : minimal_symbol_type :=
  default mst_unknown (last (filter (λ t, t ≠ mst_unknown) ts)).

(** [x] and [y] have the same address and the same name. *)
Definition same_symbol (x y : minimal_symbol) : Prop :=
  SYMBOL_VALUE_ADDRESS x = SYMBOL_VALUE_ADDRESS y ∧ SYMBOL_NAME x = SYMBOL_NAME y.

(** The string holds no byte [c]. *)
Definition char_free (c : ascii) (s : string) : Prop :=
  c ∉ list_ascii_of_string s.

(** A table with room for its count and at least one symbol, or none. *)
Definition well_formed_table (o : objfile) : Prop :=
  match msymbols o with
  | Some t => 0 < minimal_symbol_count o ≤ length t
  | None => True
  end.

(** Addresses in strictly ascending order: sorted, no two alike. *)
Definition distinct_addresses (o : objfile) : Prop :=
  NoDup (SYMBOL_VALUE_ADDRESS <$> table_entries o).

(** No two symbols of the registry, in one table or in two, have one
    address. *)
Definition distinct_in_registry (object_files : list objfile) : Prop :=
  NoDup (SYMBOL_VALUE_ADDRESS <$> (object_files ≫= table_entries)).

(** Every candidate that the scan holds is a symbol of [l] that matched in
    the way of its slot. *)
Definition search_sound (name : string) (sfile : option string)
    (l : list minimal_symbol) (s : name_search) : Prop :=
  (∀ m, found_symbol s = Some m → m ∈ l ∧ global_match name m = true) ∧
  (∀ m, found_file_symbol s = Some m →
        m ∈ l ∧ file_local_match name sfile m = true) ∧
  (∀ m, trampoline_symbol s = Some m → m ∈ l ∧ trampoline_match name m = true).
End Minsyms.

(** ** Concrete tables and loads *)

(** An object file without symbols yet, for a target that prefixes symbols
    with an underscore, and one for a target without a leading character. *)
Definition underscore_objfile : objfile := mk_objfile (Some (mk_bfd "_")) None 0.
Definition plain_objfile : objfile := mk_objfile (Some (mk_bfd "000")) None 0.

(** A demangler that recognises no name, the marker names that GDB's
    headers give, no per-symbol source files, no main object file. *)
Definition no_demangle (s : string) : option string := None.

Definition plain_gdb : Gdb :=
  Build_Gdb no_demangle "gcc_compiled." "gcc2_compiled." false None.

(** Recording requests from scratch and installing them with the stable
    sort. *)
Definition record_symbols (rs : list msym_request) (obj : objfile) : collection :=
  record_all (gdb := plain_gdb) rs obj init_minimal_symbol_collection.

Definition install_symbols (rs : list msym_request) (obj : objfile) : objfile :=
  fst (install_minimal_symbols (libc := stable_qsort) (gdb := plain_gdb) obj
         (record_symbols rs obj)).

Definition foo_text : minimal_symbol :=
  mk_msymbol (Some "foo") 4096%N language_auto None 0%Z 0%N None mst_text.
Definition foo_data : minimal_symbol :=
  mk_msymbol (Some "foo") 4096%N language_auto None 1%Z 0%N None mst_data.
Definition foo_unknown : minimal_symbol :=
  mk_msymbol (Some "foo") 4096%N language_auto None 0%Z 0%N None mst_unknown.

(** One symbol recorded twice, in a section other than 0. *)
Definition foo_twice : list msym_request :=
  [mk_request "foo" 4096%N mst_text 0%N 5%Z;
   mk_request "foo" 4096%N mst_unknown 0%N 5%Z].

(** Three symbols at one address, the two of the same name apart. *)
Definition x_y_x : list msym_request :=
  [mk_request "x" 100%N mst_text 0%N 0%Z;
   mk_request "y" 100%N mst_text 0%N 0%Z;
   mk_request "x" 100%N mst_text 0%N 0%Z].

(** One more symbol than a bunch holds, at addresses 0, 1, ..., 127. *)
Definition one_bunch_and_one : list msym_request :=
  (λ i, mk_request "s" (N.of_nat i) mst_data 0%N 1%Z) <$> seq 0 (S BUNCH_SIZE).

(** Three symbols of a program for a target with a leading underscore. *)
Definition main_etext_counter : list msym_request :=
  [mk_request "_main" 4096%N mst_text 0%N 0%Z;
   mk_request "_etext" 8192%N mst_abs 0%N (-1)%Z;
   mk_request "_counter" 8200%N mst_data 0%N 1%Z].

(** A table with a trampoline for "stub", a text symbol and an absolute
    one; in a second object file, the text of "stub". *)
Definition a_text : minimal_symbol :=
  mk_msymbol (Some "a") 100%N language_unknown None 0%Z 0%N None mst_text.
Definition b_abs : minimal_symbol :=
  mk_msymbol (Some "b") 200%N language_unknown None (-1)%Z 0%N None mst_abs.
Definition stub_trampoline : minimal_symbol :=
  mk_msymbol (Some "stub") 10%N language_unknown None 0%Z 0%N None
    mst_solib_trampoline.
Definition stub_text : minimal_symbol :=
  mk_msymbol (Some "stub") 500%N language_unknown None 0%Z 0%N None mst_text.

(** A table in which an absolute symbol shares the address of the text
    symbol after it. *)
Definition x_text : minimal_symbol :=
  mk_msymbol (Some "x") 10%N language_unknown None 0%Z 0%N None mst_text.
Definition b20_abs : minimal_symbol :=
  mk_msymbol (Some "b") 20%N language_unknown None (-1)%Z 0%N None mst_abs.
Definition a20_text : minimal_symbol :=
  mk_msymbol (Some "a") 20%N language_unknown None 0%Z 0%N None mst_text.
Definition y_text : minimal_symbol :=
  mk_msymbol (Some "y") 30%N language_unknown None 0%Z 0%N None mst_text.
Definition tied : objfile :=
  mk_objfile None (Some [x_text; b20_abs; a20_text; y_text; null_symbol]) 4.

(** A global "bar" in one object file; two file-local ones in another; two
    trampolines in a third. *)
Definition bar_text : minimal_symbol :=
  mk_msymbol (Some "bar") 300%N language_unknown None 0%Z 0%N None mst_text.
Definition bar_file_text : minimal_symbol :=
  mk_msymbol (Some "bar") 400%N language_unknown None 0%Z 0%N None mst_file_text.
Definition bar_file_data : minimal_symbol :=
  mk_msymbol (Some "bar") 410%N language_unknown None 1%Z 0%N None mst_file_data.
Definition bar_stub1 : minimal_symbol :=
  mk_msymbol (Some "bar") 40%N language_unknown None 0%Z 0%N None
    mst_solib_trampoline.
Definition bar_stub2 : minimal_symbol :=
  mk_msymbol (Some "bar") 48%N language_unknown None 0%Z 0%N None
    mst_solib_trampoline.
Definition module_a : objfile := mk_objfile None (Some [bar_text; null_symbol]) 1.
Definition module_b : objfile :=
  mk_objfile None (Some [bar_file_text; bar_file_data; null_symbol]) 2.
Definition module_c : objfile :=
  mk_objfile None (Some [bar_stub1; bar_stub2; null_symbol]) 2.

Definition program : objfile :=
  mk_objfile None (Some [stub_trampoline; a_text; b_abs; null_symbol]) 3.
Definition library : objfile :=
  mk_objfile None (Some [stub_text; null_symbol]) 1.

(** The text of "stub" at address 0. *)
Definition stub_text_at_0 : minimal_symbol :=
  mk_msymbol (Some "stub") 0%N language_unknown None 0%Z 0%N None mst_text.
Definition library_at_0 : objfile :=
  mk_objfile None (Some [stub_text_at_0; null_symbol]) 1.


(** A target that tracks the source file of file-local symbols, and an
    object file with a file-local "bar" in each of two source files. *)
Definition sofun_gdb : Gdb :=
  Build_Gdb no_demangle "gcc_compiled." "gcc2_compiled." true None.

Definition bar_in_a_c : minimal_symbol :=
  mk_msymbol (Some "bar") 400%N language_unknown None 0%Z 0%N (Some "a.c")
    mst_file_text.
Definition bar_in_b_c : minimal_symbol :=
  mk_msymbol (Some "bar") 440%N language_unknown None 0%Z 0%N (Some "b.c")
    mst_file_text.
Definition module_d : objfile :=
  mk_objfile None (Some [bar_in_a_c; bar_in_b_c; null_symbol]) 2.

(** A table that is not in order of address. *)
Definition scrambled : objfile :=
  mk_objfile None (Some [y_text; x_text; b20_abs; null_symbol]) 3.
(** * Proofs *)

Section Theorems.

Context {libc : Qsort} {gdb : Gdb}.

(** *** Compaction *)

Lemma compact_loop_spec mcount rest :
  ∀ fuel a from to cur,
    to ≤ from →
    a !! from = Some cur →
    take (length rest) (drop (S from) a) = rest →
    mcount = S from + length rest →
    length rest ≤ fuel →
    let s := compact_loop fuel mcount (mk_compact a from to) in
    copyfrom s = mcount - 1 ∧ copyto s ≤ copyfrom s ∧
    length (cs_msymbol s) = length a ∧
    drop mcount (cs_msymbol s) = drop mcount a ∧
    ∃ last, cs_msymbol s !! copyfrom s = Some last ∧
      take (copyto s) (cs_msymbol s) ++ [last] = take to a ++ merge_run cur rest.
Proof.
  induction rest as [|nxt rest IH]; intros fuel a from to cur Hle Hcur Hrest Hm Hfuel.
  - simpl in Hm. assert (Hstop : ¬ from < mcount - 1) by lia.
    assert (compact_loop fuel mcount (mk_compact a from to) = mk_compact a from to) as ->.
    { destruct fuel; simpl; [done|]. by rewrite decide_False. }
    simpl. repeat split; [lia | done | eauto].
  - destruct fuel as [|fuel]; [simpl in Hfuel; lia|].
    simpl in Hm, Hfuel.
    assert (Hnxt : a !! S from = Some nxt).
    { destruct (drop (S from) a) as [|y d] eqn:Hd; [done|].
      simpl in Hrest. injection Hrest as -> _.
      rewrite <- (Nat.add_0_r (S from)), <- lookup_drop, Hd. done. }
    assert (Hrest' : take (length rest) (drop (S (S from)) a) = rest).
    { destruct (drop (S from) a) as [|y d] eqn:Hd; [done|].
      simpl in Hrest. injection Hrest as _ Hr.
      replace (S (S from)) with (S from + 1) by lia.
      rewrite <- drop_drop, Hd. done. }
    pose proof (lookup_lt_Some _ _ _ Hnxt) as Hlen.
    cbn [compact_loop]. rewrite decide_True by (simpl; lia).
    unfold compact_body. cbn [cs_msymbol copyfrom copyto].
    rewrite Hcur, Hnxt.
    destruct (same_address_and_name cur nxt) eqn:Hdup.
    + set (a' := if decide (MSYMBOL_TYPE nxt = mst_unknown)
                 then <[S from := set_MSYMBOL_TYPE nxt (MSYMBOL_TYPE cur)]> a else a).
      assert (Ha'len : length a' = length a).
      { unfold a'. case_decide; [apply length_insert | done]. }
      assert (Ha'cur : a' !! S from = Some (absorb cur nxt)).
      { unfold a', absorb. case_decide; [by apply list_lookup_insert_eq | done]. }
      assert (Ha'drop : ∀ n, S from < n → drop n a' = drop n a).
      { intros n Hn. unfold a'. case_decide; [by apply drop_insert_lt | done]. }
      assert (Ha'take : take to a' = take to a).
      { unfold a'. case_decide; [apply take_insert_ge; lia | done]. }
      destruct (IH fuel a' (S from) to (absorb cur nxt)) as (H1 & H2 & H3 & H4 & last & H5 & H6);
        [lia | done | by rewrite Ha'drop by lia | lia | lia |].
      cbn [merge_run]. rewrite Hdup.
      repeat split; [done | done | congruence | by rewrite H4, Ha'drop by lia |].
      exists last. split; [done|]. by rewrite H6, Ha'take.
    + assert (Hto : to < length a) by lia.
      destruct (IH fuel (<[to:=cur]> a) (S from) (S to) nxt) as (H1 & H2 & H3 & H4 & last & H5 & H6);
        [lia | by rewrite list_lookup_insert_ne by lia
        | by rewrite drop_insert_lt by lia | lia | lia |].
      cbn [merge_run]. rewrite Hdup.
      repeat split; [done | done | by rewrite H3, length_insert
                    | by rewrite H4, drop_insert_lt by lia |].
      exists last. split; [done|]. rewrite H6.
      rewrite (take_S_r _ _ cur) by (by apply list_lookup_insert_eq).
      rewrite take_insert_ge by lia. by rewrite <- app_assoc.
Qed.

Lemma compact_minimal_symbols_spec (msymbol : list minimal_symbol) (mcount : nat) :
  mcount ≤ length msymbol →
  ∃ a, compact_minimal_symbols msymbol mcount
       = (a, length (merge_adjacent (take mcount msymbol))) ∧
       length a = length msymbol ∧
       take (length (merge_adjacent (take mcount msymbol))) a
       = merge_adjacent (take mcount msymbol) ∧
       drop mcount a = drop mcount msymbol.
Proof.
  intros Hle. unfold compact_minimal_symbols.
  destruct mcount as [|n].
  { exists msymbol. by rewrite decide_False by lia. }
  rewrite decide_True by lia.
  destruct msymbol as [|cur tl]; [simpl in Hle; lia|]. simpl in Hle.
  set (rest := take n tl).
  assert (Hrest : length rest = n) by (unfold rest; rewrite length_take; lia).
  destruct (compact_loop_spec (S n) rest (S n) (cur :: tl) 0 0 cur)
    as (H1 & H2 & H3 & H4 & last & H5 & H6);
    [done | done | by rewrite Hrest | lia | lia |].
  set (s := compact_loop _ _ _) in *. cbn zeta in *.
  rewrite H5. simpl in H6.
  assert (Hto : copyto s < length (cs_msymbol s)).
  { apply lookup_lt_Some in H5. lia. }
  assert (Hn : S (copyto s) = length (merge_run cur rest)).
  { rewrite <- H6, length_app, length_take. simpl. lia. }
  cbn [take merge_adjacent]. fold rest. rewrite <- Hn.
  eexists. split; [done|]. split; [by rewrite length_insert|]. split.
  - rewrite (take_S_r _ _ last) by (by apply list_lookup_insert_eq).
    by rewrite take_insert_ge by lia.
  - rewrite drop_insert_lt by lia. done.
Qed.

Lemma compacted_merge_adjacent (l : list minimal_symbol) :
  compacted l (length l) = merge_adjacent l.
Proof.
  unfold compacted.
  destruct (compact_minimal_symbols_spec l (length l)) as (a & Hc & _ & Ha & _); [lia|].
  rewrite (take_ge l (length l)) in Hc, Ha by lia. by rewrite Hc.
Qed.

Lemma absorb_address out kept :
  SYMBOL_VALUE_ADDRESS (absorb out kept) = SYMBOL_VALUE_ADDRESS kept.
Proof. unfold absorb. by case_decide. Qed.

Lemma absorb_name out kept : SYMBOL_NAME (absorb out kept) = SYMBOL_NAME kept.
Proof. unfold absorb. by case_decide. Qed.

Lemma same_address_and_name_true a b :
  same_address_and_name a b = true ↔
  SYMBOL_VALUE_ADDRESS a = SYMBOL_VALUE_ADDRESS b ∧
  ∃ n, SYMBOL_NAME a = Some n ∧ SYMBOL_NAME b = Some n.
Proof.
  unfold same_address_and_name, STREQ.
  rewrite andb_true_iff, bool_decide_eq_true.
  destruct (SYMBOL_NAME a) as [x|], (SYMBOL_NAME b) as [y|];
    try rewrite bool_decide_eq_true;
    (split; [intros [? ?]; simplify_eq; eauto
            | intros [? (n & ? & ?)]; simplify_eq; done]).
Qed.

(** Every survivor carries the address and the name of an entry of the
    input. *)
Lemma merge_run_elem cur rest x :
  x ∈ merge_run cur rest →
  ∃ y, y ∈ cur :: rest ∧
       SYMBOL_VALUE_ADDRESS x = SYMBOL_VALUE_ADDRESS y ∧
       SYMBOL_NAME x = SYMBOL_NAME y.
Proof.
  revert cur. induction rest as [|nxt rest IH]; intros cur; simpl.
  - intros ->%list_elem_of_singleton. exists cur. split; [left|done].
  - destruct (same_address_and_name cur nxt).
    + intros (y & [->|Hy]%elem_of_cons & Ha & Hn)%IH.
      * exists nxt. rewrite absorb_address in Ha. rewrite absorb_name in Hn.
        split; [right; left | done].
      * exists y. split; [by do 2 right | done].
    + intros [->|(y & Hy & Ha)%IH]%elem_of_cons.
      * exists cur. split; [left | done].
      * exists y. split; [by right | done].
Qed.

Lemma merge_run_sorted cur rest :
  sorted_by_address (cur :: rest) → sorted_by_address (merge_run cur rest).
Proof.
  unfold sorted_by_address.
  revert cur. induction rest as [|nxt rest IH]; intros cur Hs; simpl; [done|].
  apply StronglySorted_inv in Hs as [Hs Hcur].
  destruct (same_address_and_name cur nxt).
  - apply IH. apply StronglySorted_inv in Hs as [Hs Hnxt].
    constructor; [done|].
    eapply Forall_impl; [exact Hnxt|]. intros y. unfold address_le.
    by rewrite absorb_address.
  - constructor; [by apply IH|].
    rewrite Forall_forall in Hcur |- *.
    intros x (y & Hy & Ha & _)%merge_run_elem.
    specialize (Hcur _ Hy). unfold address_le in *. by rewrite Ha.
Qed.

Lemma merge_adjacent_sorted l :
  sorted_by_address l → sorted_by_address (merge_adjacent l).
Proof. destruct l; [done|]. apply merge_run_sorted. Qed.

(** The first survivor of a run has the address and the name of the entry
    the run starts with. *)
Lemma merge_run_head cur rest :
  ∃ x out, merge_run cur rest = x :: out ∧
           SYMBOL_VALUE_ADDRESS x = SYMBOL_VALUE_ADDRESS cur ∧
           SYMBOL_NAME x = SYMBOL_NAME cur.
Proof.
  revert cur. induction rest as [|nxt rest IH]; intros cur; simpl; [by eauto|].
  destruct (same_address_and_name cur nxt) eqn:Hdup; [|by eauto].
  destruct (IH (absorb cur nxt)) as (x & out & -> & Ha & Hn).
  apply same_address_and_name_true in Hdup as (Hda & n & Hn1 & Hn2).
  exists x, out. rewrite Ha, Hn, absorb_address, absorb_name.
  split; [done|]. split; congruence.
Qed.

(** No survivor is followed by a survivor that the test of the pass would
    have taken for its duplicate. *)
Lemma merge_run_adjacent cur rest i a b :
  merge_run cur rest !! i = Some a →
  merge_run cur rest !! S i = Some b →
  same_address_and_name a b = false.
Proof.
  revert cur i. induction rest as [|nxt rest IH]; intros cur i; simpl; [done|].
  destruct (same_address_and_name cur nxt) eqn:Hdup; [by apply IH|].
  destruct i as [|i]; simpl; [|by apply IH].
  intros [= <-] Hb.
  destruct (merge_run_head nxt rest) as (x & out & Hx & Ha & Hn).
  rewrite Hx in Hb. injection Hb as <-.
  unfold same_address_and_name in *. by rewrite Ha, Hn.
Qed.

Lemma merge_adjacent_adjacent l i a b :
  merge_adjacent l !! i = Some a →
  merge_adjacent l !! S i = Some b →
  same_address_and_name a b = false.
Proof. destruct l; [done|]. apply merge_run_adjacent. Qed.




(** *** The comparison function orders by address *)

Lemma compare_minimal_symbols_le a b :
  (compare_minimal_symbols a b ≤ 0)%Z ↔ address_le a b.
Proof.
  unfold compare_minimal_symbols, address_le.
  repeat case_decide; split; intros; lia.
Qed.

Lemma qsort_sorted_by_address l :
  sorted_by_address (qsort compare_minimal_symbols l).
Proof.
  unfold sorted_by_address.
  pose proof (qsort_ascending l) as Hs.
  induction Hs as [|x xs _ IH Hx]; constructor; [done|].
  eapply Forall_impl; [exact Hx|]. intros y. apply compare_minimal_symbols_le.
Qed.

(** *** The installed table *)

Lemma install_minimal_symbols_publishes obj st :
  0 < msym_count st →
  fst (install_minimal_symbols obj st) =
    mk_objfile (obfd obj)
      (Some ((SYMBOL_INIT_DEMANGLED_NAME <$> installed_entries obj st)
             ++ [null_terminator (stale_slot obj st)]))
      (length (installed_entries obj st)).
Proof.
  intros Hc. unfold install_minimal_symbols, installed_entries, stale_slot.
  rewrite decide_True by done.
  set (sorted := qsort compare_minimal_symbols _).
  destruct (compact_minimal_symbols_spec sorted (length sorted))
    as (a & Hcompact & _ & Ha & _); [lia|].
  rewrite (take_ge sorted (length sorted)) in Hcompact, Ha by lia. rewrite Hcompact.
  cbn. by rewrite Ha.
Qed.

Lemma install_table_entries obj st :
  0 < msym_count st →
  table_entries (fst (install_minimal_symbols obj st)) =
    SYMBOL_INIT_DEMANGLED_NAME <$> installed_entries obj st.
Proof.
  intros Hc. rewrite install_minimal_symbols_publishes by done.
  unfold table_entries; cbn.
  rewrite take_app_length'; [done|]. by rewrite length_fmap.
Qed.

Lemma SYMBOL_INIT_DEMANGLED_NAME_address m :
  SYMBOL_VALUE_ADDRESS (SYMBOL_INIT_DEMANGLED_NAME m) = SYMBOL_VALUE_ADDRESS m.
Proof. unfold SYMBOL_INIT_DEMANGLED_NAME. case_decide; [|done]. by case_match. Qed.

Lemma SYMBOL_INIT_DEMANGLED_NAME_name m :
  SYMBOL_NAME (SYMBOL_INIT_DEMANGLED_NAME m) = SYMBOL_NAME m.
Proof. unfold SYMBOL_INIT_DEMANGLED_NAME. case_decide; [|done]. by case_match. Qed.


Lemma sorted_by_address_fmap (f : minimal_symbol → minimal_symbol) l :
  (∀ m, SYMBOL_VALUE_ADDRESS (f m) = SYMBOL_VALUE_ADDRESS m) →
  sorted_by_address l → sorted_by_address (f <$> l).
Proof.
  intros Hf. unfold sorted_by_address.
  induction 1 as [|x xs _ IH Hx]; simpl; constructor; [done|].
  apply Forall_fmap. eapply Forall_impl; [exact Hx|].
  intros y. unfold address_le; simpl. by rewrite !Hf.
Qed.

Lemma install_table_sorted obj st :
  0 < msym_count st →
  sorted_by_address (table_entries (fst (install_minimal_symbols obj st))).
Proof.
  intros Hc. rewrite install_table_entries by done.
  apply sorted_by_address_fmap; [apply SYMBOL_INIT_DEMANGLED_NAME_address|].
  apply merge_adjacent_sorted, qsort_sorted_by_address.
Qed.

Lemma sorted_by_address_adjacent l i a b :
  sorted_by_address l → l !! i = Some a → l !! S i = Some b → address_le a b.
Proof.
  unfold sorted_by_address. intros Hs. revert i.
  induction Hs as [|x xs _ IH Hx]; intros i; [done|].
  destruct i as [|i]; simpl; [|by apply IH].
  intros [= <-] Hb. rewrite Forall_forall in Hx. apply Hx.
  by eapply list_elem_of_lookup_2.
Qed.

(** *** Lookup by address *)

Lemma msym_at_lookup msymbol (i : nat) m :
  msymbol !! i = Some m → msym_at msymbol (Z.of_nat i) = m.
Proof.
  intros Hm. unfold msym_at. rewrite decide_True by lia.
  by rewrite Nat2Z.id, Hm.
Qed.

Lemma msym_at_take msymbol (count : nat) (i : Z) :
  (0 ≤ i < Z.of_nat count)%Z → count ≤ length msymbol →
  take count msymbol !! Z.to_nat i = Some (msym_at msymbol i).
Proof.
  intros Hi Hc. unfold msym_at. rewrite decide_True by lia.
  rewrite lookup_take_lt by lia.
  destruct (lookup_lt_is_Some_2 msymbol (Z.to_nat i)) as [m ->]; [lia|done].
Qed.

Lemma sorted_by_address_lookup l i j a b :
  sorted_by_address l → l !! i = Some a → l !! j = Some b → i ≤ j →
  address_le a b.
Proof.
  unfold sorted_by_address. intros Hs. revert i j.
  induction Hs as [|x xs _ IH Hx]; intros i j; [done|].
  destruct i as [|i], j as [|j]; simpl; try lia.
  - intros [= <-] [= <-] _. unfold address_le. lia.
  - intros [= <-] Hb _. rewrite Forall_forall in Hx. apply Hx.
    by eapply list_elem_of_lookup_2.
  - intros Ha Hb Hij. apply (IH i j); [done..|lia].
Qed.

Section pc_search.

Variable msymbol : list minimal_symbol.
Variable count : nat.
Variable pc : CORE_ADDR.
Hypothesis count_le : count ≤ length msymbol.
Hypothesis table_sorted : sorted_by_address (take count msymbol).

Let addr_at (i : Z) : CORE_ADDR := SYMBOL_VALUE_ADDRESS (msym_at msymbol i).

(** Nothing after [hi] that is at most [pc] lies above entry [hi]. *)
Let dominates (hi : Z) : Prop :=
  ∀ i, (hi < i < Z.of_nat count)%Z → (addr_at i ≤ pc)%N → (addr_at i ≤ addr_at hi)%N.

Lemma addr_at_mono i j :
  (0 ≤ i ≤ j)%Z → (j < Z.of_nat count)%Z → (addr_at i ≤ addr_at j)%N.
Proof using count_le table_sorted.
  intros Hij Hj.
  apply (sorted_by_address_lookup (take count msymbol) (Z.to_nat i) (Z.to_nat j));
    [done | by apply msym_at_take; [lia|] | by apply msym_at_take; [lia|] | lia].
Qed.

Lemma pc_search_loop_spec fuel :
  ∀ lo hi,
    (0 ≤ lo ≤ hi)%Z → (hi < Z.of_nat count)%Z →
    (addr_at lo ≤ pc)%N → dominates hi →
    (hi - lo < Z.of_nat fuel)%Z →
    ∃ lo' hi', pc_search_loop fuel msymbol pc (lo, hi) = (lo', hi') ∧
      (0 ≤ hi' < Z.of_nat count)%Z ∧ (addr_at hi' ≤ pc)%N ∧ dominates hi'.
Proof using count_le table_sorted.
  induction fuel as [|fuel IH]; intros lo hi Hlohi Hhi Hlo Hdom Hfuel; [lia|].
  cbn [pc_search_loop snd].
  case_bool_decide as Hguard.
  2:{ exists lo, hi. repeat split; [lia..| |done]. fold (addr_at hi) in Hguard. lia. }
  fold (addr_at hi) in Hguard.
  assert (lo < hi)%Z as Hlt.
  { destruct (decide (lo = hi)) as [->|]; [lia|lia]. }
  unfold pc_search_body.
  assert (lo ≤ (lo + hi) ÷ 2 < hi ∧ lo + hi < 2 * ((lo + hi) ÷ 2) + 2)%Z as [Hnew Hhalf].
  { clear - Hlohi Hlt. rewrite Z.quot_div_nonneg by lia.
    pose proof (Z.div_mod (lo + hi) 2). pose proof (Z.mod_pos_bound (lo + hi) 2).
    lia. }
  set (new := ((lo + hi) ÷ 2)%Z) in *. fold (addr_at new).
  destruct (bool_decide (pc ≤ addr_at new)%N) eqn:Hge; cbn [orb].
  - apply bool_decide_eq_true in Hge.
    apply IH; [lia | lia | done | | lia].
    intros i Hi Hle. lia.
  - apply bool_decide_eq_false in Hge.
    case_bool_decide as Heq.
    + apply IH; [lia | lia | done | | lia].
      intros i Hi Hle. exfalso.
      assert (addr_at hi ≤ addr_at i)%N by (apply addr_at_mono; lia).
      lia.
    + apply IH; [lia | lia | lia | done | lia].
Qed.

Lemma skip_absolute_spec (n : nat) :
  ∀ fuel, n ≤ fuel → n ≤ count →
    let k := skip_absolute fuel msymbol (Z.of_nat n - 1) in
    (if decide (0 ≤ k)%Z then Some (msym_at msymbol k) else None)
    = last_not_absolute (take n msymbol).
Proof using count_le.
  unfold last_not_absolute.
  induction n as [|n IH]; intros fuel Hfuel Hn.
  - by destruct fuel.
  - destruct fuel as [|fuel]; [lia|].
    destruct (lookup_lt_is_Some_2 msymbol n) as [m Hm]; [lia|].
    rewrite (take_S_r _ _ m), filter_app by done.
    replace (Z.of_nat (S n) - 1)%Z with (Z.of_nat n) by lia.
    cbn [skip_absolute]. rewrite bool_decide_eq_true_2 by lia. cbn [andb].
    rewrite (msym_at_lookup _ _ _ Hm).
    case_bool_decide as Habs.
    + rewrite filter_cons_False, filter_nil, app_nil_r by naive_solver.
      apply IH; lia.
    + rewrite filter_cons_True, filter_nil, last_snoc by done.
      rewrite decide_True by lia. by rewrite (msym_at_lookup _ _ _ Hm).
Qed.

Lemma pc_index_spec :
  0 < count →
  (pc < addr_at 0 → pc_index pc msymbol count = None)%N ∧
  ((addr_at 0 ≤ pc)%N →
     ∃ (h : nat) (k : Z),
       h < count ∧ greatest_at_most pc (take count msymbol) h ∧
       pc_index pc msymbol count = Some k ∧
       (if decide (0 ≤ k)%Z then Some (msym_at msymbol k) else None)
       = last_not_absolute (take (S h) msymbol)).
Proof using count_le table_sorted.
  intros Hpos. unfold pc_index. fold (addr_at 0). split.
  { intros Hlt. by rewrite bool_decide_eq_false_2 by lia. }
  intros Hle. rewrite bool_decide_eq_true_2 by done.
  destruct (pc_search_loop_spec (S count) 0 (Z.of_nat count - 1))
    as (lo' & hi' & -> & Hhi & Hpc & Hdom);
    [lia | lia | done | | lia |].
  { intros i Hi. lia. }
  exists (Z.to_nat hi'), (skip_absolute (S count) msymbol hi').
  split; [lia|]. split; [|split; [done|]].
  - exists (msym_at msymbol hi'). split; [by apply msym_at_take|].
    split; [done|]. intros x Hx Hxpc.
    apply list_elem_of_lookup in Hx as [i Hi].
    pose proof (lookup_lt_Some _ _ _ Hi) as Hilen.
    rewrite length_take in Hilen.
    assert (x = msym_at msymbol (Z.of_nat i)) as ->.
    { pose proof (msym_at_take msymbol count (Z.of_nat i)) as Hm.
      rewrite Nat2Z.id, Hi in Hm. injection Hm; [done|lia|done]. }
    fold (addr_at (Z.of_nat i)) in *.
    destruct (decide (Z.of_nat i ≤ hi')%Z).
    + apply addr_at_mono; lia.
    + apply Hdom; [lia|done].
  - pose proof (skip_absolute_spec (S (Z.to_nat hi')) (S count)) as Hskip.
    replace (Z.of_nat (S (Z.to_nat hi')) - 1)%Z with hi' in Hskip by lia.
    apply Hskip; lia.
Qed.

End pc_search.

Lemma pc_objfile_better pc best o :
  pc_objfile pc best o = better_symbol best (pc_candidate pc o).
Proof.
  unfold pc_candidate, pc_objfile.
  destruct (msymbols o) as [t|]; [|done].
  destruct (pc_index pc t (minimal_symbol_count o)) as [hi|]; [|done].
  case_bool_decide; cbn [andb]; [|done].
  destruct best as [b|]; [|done]. simpl. by case_bool_decide.
Qed.

Lemma pc_candidate_spec pc o :
  searchable o →
  match lowest_address o with
  | None => pc_candidate pc o = None
  | Some low =>
      ((pc < low)%N → pc_candidate pc o = None) ∧
      ((low ≤ pc)%N →
         ∃ h, h < minimal_symbol_count o ∧
              greatest_at_most pc (table_entries o) h ∧
              pc_candidate pc o = last_not_absolute (take (S h) (table_entries o)))
  end.
Proof.
  unfold searchable, lowest_address, table_entries, pc_candidate, pc_objfile.
  destruct (msymbols o) as [t|]; [|done].
  intros [[Hpos Hlen] Hsorted].
  set (count := minimal_symbol_count o) in *.
  destruct (pc_index_spec t count pc Hlen Hsorted Hpos) as [Hbelow Hfrom].
  destruct (lookup_lt_is_Some_2 t 0) as [m0 Hm0]; [lia|].
  assert (head (take count t) = Some m0) as ->.
  { rewrite head_lookup. rewrite lookup_take_lt by lia. done. }
  pose proof (msym_at_lookup t 0 m0 Hm0) as Hm0'. change (Z.of_nat 0) with 0%Z in Hm0'.
  rewrite Hm0' in Hbelow, Hfrom. simpl.
  split.
  - intros Hlt. by rewrite Hbelow.
  - intros Hle. destruct (Hfrom Hle) as (h & k & Hh & Hgreat & -> & Hk).
    exists h. split; [done|]. split; [done|].
    rewrite take_take, Nat.min_l by lia. rewrite <- Hk.
    case_decide; [by rewrite bool_decide_eq_true_2 | by rewrite bool_decide_eq_false_2].
Qed.

Lemma lookup_minimal_symbol_by_pc_fold pc object_files :
  lookup_minimal_symbol_by_pc object_files pc =
  foldl better_symbol None (pc_candidate pc <$> object_files).
Proof.
  unfold lookup_minimal_symbol_by_pc. generalize (@None minimal_symbol).
  induction object_files as [|o l IH]; intros best; simpl; [done|].
  by rewrite IH, pc_objfile_better.
Qed.

(** The fold keeps the first candidate among those of greatest address. *)
Lemma better_symbol_fold (cands : list (option minimal_symbol)) :
  match foldl better_symbol None cands with
  | None => ∀ c, c ∈ cands → c = None
  | Some best =>
      ∃ i, cands !! i = Some (Some best) ∧
        ∀ j c, cands !! j = Some (Some c) →
          (SYMBOL_VALUE_ADDRESS c ≤ SYMBOL_VALUE_ADDRESS best)%N ∧
          (j < i → (SYMBOL_VALUE_ADDRESS c < SYMBOL_VALUE_ADDRESS best)%N)
  end.
Proof.
  induction cands as [|cand cands IH] using rev_ind; [by intros c ?%elem_of_nil|].
  rewrite foldl_app. cbn [foldl].
  destruct (foldl better_symbol None cands) as [best|].
  - destruct IH as (i & Hi & Hmax).
    pose proof (lookup_lt_Some _ _ _ Hi) as Hilen.
    assert (Hkeep : ∃ i', (cands ++ [cand]) !! i' = Some (Some best) ∧
              ∀ j c, cands !! j = Some (Some c) →
                (SYMBOL_VALUE_ADDRESS c ≤ SYMBOL_VALUE_ADDRESS best)%N ∧
                (j < i' → (SYMBOL_VALUE_ADDRESS c < SYMBOL_VALUE_ADDRESS best)%N)).
    { exists i. split; [by rewrite lookup_app_l|done]. }
    destruct cand as [c|]; simpl.
    + case_bool_decide as Hlt.
      * exists (length cands). split; [by rewrite list_lookup_middle|].
        intros j c' Hj.
        destruct (decide (j < length cands)) as [Hjl|Hjl].
        -- rewrite lookup_app_l in Hj by done.
           destruct (Hmax j c' Hj) as [Hle _]. split; [lia|]. intros _. lia.
        -- apply lookup_lt_Some in Hj as Hjl'. rewrite length_app in Hjl'. simpl in Hjl'.
           assert (j = length cands) as -> by lia.
           rewrite list_lookup_middle in Hj by done. injection Hj as ->.
           split; [lia|lia].
      * destruct Hkeep as (i' & Hi' & Hmax'). exists i. split; [by rewrite lookup_app_l|].
        intros j c' Hj.
        destruct (decide (j < length cands)) as [Hjl|Hjl].
        -- rewrite lookup_app_l in Hj by done. by apply Hmax.
        -- apply lookup_lt_Some in Hj as Hjl'. rewrite length_app in Hjl'. simpl in Hjl'.
           assert (j = length cands) as -> by lia.
           rewrite list_lookup_middle in Hj by done. injection Hj as ->.
           split; [lia|lia].
    + exists i. split; [by rewrite lookup_app_l|].
      intros j c' Hj.
      destruct (decide (j < length cands)) as [Hjl|Hjl].
      * rewrite lookup_app_l in Hj by done. by apply Hmax.
      * apply lookup_lt_Some in Hj as Hjl'. rewrite length_app in Hjl'. simpl in Hjl'.
        assert (j = length cands) as -> by lia.
        rewrite list_lookup_middle in Hj by done. done.
  - destruct cand as [c|]; simpl.
    + exists (length cands). split; [by rewrite list_lookup_middle|].
      intros j c' Hj.
      destruct (decide (j < length cands)) as [Hjl|Hjl].
      * rewrite lookup_app_l in Hj by done.
        apply list_elem_of_lookup_2, IH in Hj. done.
      * apply lookup_lt_Some in Hj as Hjl'. rewrite length_app in Hjl'. simpl in Hjl'.
        assert (j = length cands) as -> by lia.
        rewrite list_lookup_middle in Hj by done. injection Hj as ->.
        split; [lia|lia].
    + intros c [Hc| ->%list_elem_of_singleton]%elem_of_app; [by apply IH|done].
Qed.

(** C4.  Over object files whose tables are sorted by address (and hold at
    least one symbol when present), [lookup_minimal_symbol_by_pc] is this:
    an object file without a table, or whose lowest address is above [pc],
    offers nothing; any other offers, for an entry [h] of greatest address
    not above [pc], the last entry at or before [h] that is not absolute
    (nothing if all of them are); the result is the offer of greatest
    address, the first such object file winning ties, and NULL exactly when
    no object file offers anything. *)
Theorem lookup_minimal_symbol_by_pc_spec (object_files : list objfile)
    (pc : CORE_ADDR) :
  Forall searchable object_files →
  (∀ o, o ∈ object_files →
     match lowest_address o with
     | None => pc_candidate pc o = None
     | Some low =>
         ((pc < low)%N → pc_candidate pc o = None) ∧
         ((low ≤ pc)%N →
            ∃ h, h < minimal_symbol_count o ∧
                 greatest_at_most pc (table_entries o) h ∧
                 pc_candidate pc o
                 = last_not_absolute (take (S h) (table_entries o)))
     end) ∧
  match lookup_minimal_symbol_by_pc object_files pc with
  | None => ∀ o, o ∈ object_files → pc_candidate pc o = None
  | Some best =>
      ∃ i o, object_files !! i = Some o ∧ pc_candidate pc o = Some best ∧
        ∀ j o' c, object_files !! j = Some o' → pc_candidate pc o' = Some c →
          (SYMBOL_VALUE_ADDRESS c ≤ SYMBOL_VALUE_ADDRESS best)%N ∧
          (j < i → (SYMBOL_VALUE_ADDRESS c < SYMBOL_VALUE_ADDRESS best)%N)
  end.
Proof.
  intros Hall. split.
  { intros o Ho. apply pc_candidate_spec. rewrite Forall_forall in Hall. by apply Hall. }
  rewrite lookup_minimal_symbol_by_pc_fold.
  pose proof (better_symbol_fold (pc_candidate pc <$> object_files)) as Hfold.
  destruct (foldl better_symbol None (pc_candidate pc <$> object_files)) as [best|].
  - destruct Hfold as (i & Hi & Hmax).
    rewrite list_lookup_fmap in Hi.
    destruct (object_files !! i) as [o|] eqn:Ho; [|done].
    injection Hi as Hi. exists i, o. split; [done|]. split; [done|].
    intros j o' c Hj Hc. apply (Hmax j c). by rewrite list_lookup_fmap, Hj, <- Hc.
  - intros o Ho. apply Hfold. by apply list_elem_of_fmap_2.
Qed.

(** *** Lookup by name *)

Lemma foldl_name_step_guarded_found name sfile l s :
  found_symbol s ≠ None → foldl (name_step_guarded name sfile) s l = s.
Proof.
  intros Hs. induction l as [|m l IH]; simpl; [done|].
  unfold name_step_guarded at 2. by rewrite bool_decide_eq_false_2.
Qed.

Lemma name_scan_table_flat name sfile t s :
  name_scan_table name sfile t s
  = foldl (name_step_guarded name sfile) s (named_prefix t).
Proof.
  revert s. induction t as [|m t IH]; intros s; simpl; [done|].
  unfold named. destruct (decide (SYMBOL_NAME m ≠ None)) as [Hn|Hn].
  - rewrite bool_decide_eq_true_2 by done. cbn [andb foldl].
    unfold name_step_guarded at 2. case_bool_decide as Hf; [apply IH|].
    by rewrite foldl_name_step_guarded_found.
  - by rewrite bool_decide_eq_false_2.
Qed.

Lemma name_scan_objfiles_flat name sfile objf object_files :
  ∀ here s,
    name_scan_objfiles name sfile objf here object_files s
    = foldl (name_step_guarded name sfile) s (scan_order objf here object_files).
Proof.
  induction object_files as [|o l IH]; intros here s; simpl; [done|].
  rewrite foldl_app. case_bool_decide as Hf.
  - rewrite IH. f_equal.
    destruct (bool_decide (objf = None) || bool_decide (objf = Some here)); [|done].
    destruct (msymbols o); [apply name_scan_table_flat|done].
  - by do 2 rewrite (foldl_name_step_guarded_found _ _ _ s) by done.
Qed.

Lemma name_step_global name sfile s m :
  global_match name m = true →
  name_step name sfile s m
  = mk_search (Some m) (found_file_symbol s) (trampoline_symbol s).
Proof.
  unfold global_match, name_step. intros [-> Ht]%andb_true_iff.
  by destruct (MSYMBOL_TYPE m).
Qed.

Lemma name_step_file_local name sfile s m :
  file_local_match name sfile m = true →
  name_step name sfile s m
  = mk_search (found_symbol s) (Some m) (trampoline_symbol s).
Proof.
  unfold file_local_match, name_step.
  intros [[-> Ht]%andb_true_iff ->]%andb_true_iff.
  by destruct (MSYMBOL_TYPE m).
Qed.

Lemma name_step_trampoline name sfile s m :
  trampoline_match name m = true →
  name_step name sfile s m
  = mk_search (found_symbol s) (found_file_symbol s)
      (match trampoline_symbol s with None => Some m | Some t => Some t end).
Proof.
  unfold trampoline_match, name_step.
  intros [-> ->%bool_decide_eq_true]%andb_true_iff.
  destruct s as [f fl [t|]]; done.
Qed.

Lemma name_step_found_not_global name sfile s m :
  global_match name m = false →
  found_symbol (name_step name sfile s m) = found_symbol s.
Proof.
  unfold global_match, name_step.
  destruct (SYMBOL_MATCHES_NAME m name); [|done].
  destruct (MSYMBOL_TYPE m); simpl; try done; intros _;
    repeat case_match; done.
Qed.

Lemma name_step_file_not_file_local name sfile s m :
  file_local_match name sfile m = false →
  found_file_symbol (name_step name sfile s m) = found_file_symbol s.
Proof.
  unfold file_local_match, name_step.
  destruct (SYMBOL_MATCHES_NAME m name); [|done].
  destruct (MSYMBOL_TYPE m); simpl; try done; try (by intros ->);
    intros _; repeat case_match; done.
Qed.

Lemma name_step_trampoline_kept name sfile s m t :
  trampoline_symbol s = Some t →
  trampoline_symbol (name_step name sfile s m) = Some t.
Proof.
  unfold name_step. intros Ht.
  destruct (SYMBOL_MATCHES_NAME m name); [|done].
  destruct (MSYMBOL_TYPE m); simpl; try done; repeat case_match; simplify_eq; done.
Qed.

Lemma name_step_trampoline_not_match name sfile s m :
  trampoline_match name m = false →
  trampoline_symbol (name_step name sfile s m) = trampoline_symbol s.
Proof.
  unfold trampoline_match, name_step.
  destruct (SYMBOL_MATCHES_NAME m name); [|done].
  destruct (MSYMBOL_TYPE m); simpl; try done; intros _; repeat case_match; done.
Qed.

(** While no global match is met the first candidate stays empty. *)
Lemma scan_no_global name sfile l s :
  found_symbol s = None →
  (∀ x, x ∈ l → global_match name x = false) →
  found_symbol (foldl (name_step_guarded name sfile) s l) = None.
Proof.
  revert s. induction l as [|m l IH]; intros s Hs Hl; simpl; [done|].
  apply IH; [|intros x Hx; apply Hl; by right].
  unfold name_step_guarded. rewrite bool_decide_eq_true_2 by done.
  rewrite name_step_found_not_global; [done|]. apply Hl. left.
Qed.

Lemma scan_no_file_local name sfile l s :
  (∀ x, x ∈ l → file_local_match name sfile x = false) →
  found_file_symbol (foldl (name_step_guarded name sfile) s l) = found_file_symbol s.
Proof.
  revert s. induction l as [|m l IH]; intros s Hl; simpl; [done|].
  rewrite IH by (intros x Hx; apply Hl; by right).
  unfold name_step_guarded. case_bool_decide; [|done].
  apply name_step_file_not_file_local, Hl. left.
Qed.

Lemma scan_trampoline_kept name sfile l s t :
  trampoline_symbol s = Some t →
  trampoline_symbol (foldl (name_step_guarded name sfile) s l) = Some t.
Proof.
  revert s. induction l as [|m l IH]; intros s Hs; simpl; [done|].
  apply IH. unfold name_step_guarded. case_bool_decide; [|done].
  by apply name_step_trampoline_kept.
Qed.

Lemma scan_no_trampoline name sfile l s :
  (∀ x, x ∈ l → trampoline_match name x = false) →
  trampoline_symbol (foldl (name_step_guarded name sfile) s l) = trampoline_symbol s.
Proof.
  revert s. induction l as [|m l IH]; intros s Hl; simpl; [done|].
  rewrite IH by (intros x Hx; apply Hl; by right).
  unfold name_step_guarded. case_bool_decide; [|done].
  apply name_step_trampoline_not_match, Hl. left.
Qed.

Lemma lookup_minimal_symbol_flat object_files name sfile objf :
  lookup_minimal_symbol object_files name sfile objf
  = name_result
      (foldl (name_step_guarded name (effective_sfile sfile))
         (mk_search None None None) (scan_order objf 0 object_files)).
Proof.
  unfold lookup_minimal_symbol. fold (effective_sfile sfile).
  cbn zeta. by rewrite name_scan_objfiles_flat.
Qed.

(** C5.  With the symbols taken in the order of the scan (object files in
    registry order, each table in its own order up to its null symbol),
    [lookup_minimal_symbol] returns the first global match if there is one;
    failing that the last file-local match; failing that the first
    trampoline match; failing that NULL.  Once a global match is recorded
    neither loop does anything more. *)
Theorem lookup_minimal_symbol_precedence (object_files : list objfile)
    (name : string) (sfile : option string) (objf : option nat) :
  let scan := scan_order objf 0 object_files in
  let sf := effective_sfile sfile in
  (∀ pre g post,
     scan = pre ++ g :: post →
     global_match name g = true →
     (∀ x, x ∈ pre → global_match name x = false) →
     lookup_minimal_symbol object_files name sfile objf = Some g) ∧
  ((∀ x, x ∈ scan → global_match name x = false) →
   (∀ pre f post,
      scan = pre ++ f :: post →
      file_local_match name sf f = true →
      (∀ x, x ∈ post → file_local_match name sf x = false) →
      lookup_minimal_symbol object_files name sfile objf = Some f) ∧
   ((∀ x, x ∈ scan → file_local_match name sf x = false) →
    (∀ pre t post,
       scan = pre ++ t :: post →
       trampoline_match name t = true →
       (∀ x, x ∈ pre → trampoline_match name x = false) →
       lookup_minimal_symbol object_files name sfile objf = Some t) ∧
    ((∀ x, x ∈ scan → trampoline_match name x = false) →
     lookup_minimal_symbol object_files name sfile objf = None))) ∧
  (∀ s, found_symbol s ≠ None →
     (∀ t, name_scan_table name sf t s = s) ∧
     (∀ here l, name_scan_objfiles name sf objf here l s = s)).
Proof.
  intros scan sf. rewrite lookup_minimal_symbol_flat. fold scan sf.
  set (init := mk_search None None None).
  split; [|split].
  - intros pre g post Hscan Hg Hpre. rewrite Hscan, foldl_app. cbn [foldl].
    pose proof (scan_no_global name sf pre init eq_refl Hpre) as Hnone.
    unfold name_step_guarded at 2. rewrite bool_decide_eq_true_2 by done.
    rewrite name_step_global by done.
    rewrite foldl_name_step_guarded_found by done. done.
  - intros Hglobal.
    pose proof (scan_no_global name sf scan init eq_refl Hglobal) as Hfound.
    unfold name_result. rewrite Hfound. split.
    + intros pre f post Hscan Hf Hpost.
      rewrite Hscan, foldl_app. cbn [foldl].
      rewrite scan_no_file_local by done.
      assert (found_symbol (foldl (name_step_guarded name sf) init pre) = None) as Hpre.
      { apply scan_no_global; [done|]. intros x Hx. apply Hglobal.
        rewrite Hscan. apply elem_of_app. by left. }
      unfold name_step_guarded at 1. rewrite bool_decide_eq_true_2 by done.
      by rewrite name_step_file_local.
    + intros Hfile. rewrite scan_no_file_local by done. simpl. split.
      * intros pre t post Hscan Ht Hpre. rewrite Hscan, foldl_app. cbn [foldl].
        apply scan_trampoline_kept.
        assert (found_symbol (foldl (name_step_guarded name sf) init pre) = None) as Hnone.
        { apply scan_no_global; [done|]. intros x Hx. apply Hglobal.
          rewrite Hscan. apply elem_of_app. by left. }
        pose proof (scan_no_trampoline name sf pre init Hpre) as Hfirst.
        set (s0 := foldl (name_step_guarded name sf) init pre) in *.
        unfold name_step_guarded. rewrite bool_decide_eq_true_2 by done.
        rewrite name_step_trampoline by done. cbn [trampoline_symbol].
        by rewrite Hfirst.
      * intros Htramp. by rewrite scan_no_trampoline.
  - intros s Hs. split.
    + intros t. rewrite name_scan_table_flat.
      by apply foldl_name_step_guarded_found.
    + intros here l. rewrite name_scan_objfiles_flat.
      by apply foldl_name_step_guarded_found.
Qed.

(** *** Trampolines *)

Lemma text_target_in_table_flat tname t :
  text_target_in_table tname t = first_text_address tname (named_prefix t).
Proof.
  induction t as [|m t IH]; simpl; [done|].
  case_decide; [|done]. simpl. unfold text_match. by rewrite IH.
Qed.

Lemma first_text_address_app tname l1 l2 :
  first_text_address tname (l1 ++ l2) =
  match first_text_address tname l1 with
  | Some a => Some a
  | None => first_text_address tname l2
  end.
Proof.
  induction l1 as [|m l1 IH]; simpl; [done|].
  destruct (text_match tname m); [done|apply IH].
Qed.

Lemma text_target_flat tname object_files here :
  text_target tname object_files
  = first_text_address tname (scan_order None here object_files).
Proof.
  revert here. induction object_files as [|o l IH]; intros here; simpl; [done|].
  rewrite first_text_address_app, <- (IH (S here)).
  destruct (msymbols o) as [t|]; simpl; [|done].
  by rewrite text_target_in_table_flat.
Qed.

Lemma first_text_address_first tname pre m post :
  text_match tname m = true →
  (∀ x, x ∈ pre → text_match tname x = false) →
  first_text_address tname (pre ++ m :: post) = Some (SYMBOL_VALUE_ADDRESS m).
Proof.
  intros Hm. induction pre as [|x pre IH]; intros Hpre; simpl.
  - by rewrite Hm.
  - rewrite (Hpre x) by left. apply IH. intros y Hy. apply Hpre. by right.
Qed.

Lemma first_text_address_none tname l :
  (∀ x, x ∈ l → text_match tname x = false) → first_text_address tname l = None.
Proof.
  induction l as [|x l IH]; intros Hl; simpl; [done|].
  rewrite (Hl x) by left. apply IH. intros y Hy. apply Hl. by right.
Qed.

Lemma first_text_address_some tname l a :
  first_text_address tname l = Some a →
  ∃ pre m post, l = pre ++ m :: post ∧ text_match tname m = true ∧
    (∀ x, x ∈ pre → text_match tname x = false) ∧ a = SYMBOL_VALUE_ADDRESS m.
Proof.
  induction l as [|x l IH]; simpl; [done|].
  destruct (text_match tname x) eqn:Hx.
  - intros [= <-]. exists [], x, l. split; [done|]. split; [done|].
    split; [by intros y ?%elem_of_nil|done].
  - intros (pre & m & post & -> & Hm & Hpre & ->)%IH.
    exists (x :: pre), m, post. split; [done|]. split; [done|]. split; [|done].
    intros y [->|Hy]%elem_of_cons; [done|by apply Hpre].
Qed.

(** C8 (as amended).  [find_solib_trampoline_target] returns the address of
    the first text symbol, in the order of the scan over all object files,
    whose name equals that of the trampoline symbol found at [pc]; it
    returns 0, its only way of saying "none", when the lookup at [pc] finds
    no trampoline symbol or no text symbol has that name.  So the result is
    something other than "none" exactly when there are such a trampoline and
    such a first text symbol and the address of that text symbol is not 0,
    and the result is then that address. *)
Theorem find_solib_trampoline_target_spec (object_files : list objfile)
    (pc : CORE_ADDR) :
  let scan := scan_order None 0 object_files in
  let result := find_solib_trampoline_target object_files pc in
  (∀ tsymbol pre m post,
     lookup_minimal_symbol_by_pc object_files pc = Some tsymbol →
     MSYMBOL_TYPE tsymbol = mst_solib_trampoline →
     scan = pre ++ m :: post →
     text_match (SYMBOL_NAME tsymbol) m = true →
     (∀ x, x ∈ pre → text_match (SYMBOL_NAME tsymbol) x = false) →
     result = SYMBOL_VALUE_ADDRESS m) ∧
  ((∀ tsymbol,
      lookup_minimal_symbol_by_pc object_files pc = Some tsymbol →
      MSYMBOL_TYPE tsymbol = mst_solib_trampoline →
      ∀ x, x ∈ scan → text_match (SYMBOL_NAME tsymbol) x = false) →
   result = 0%N) ∧
  (result ≠ 0%N ↔
   ∃ tsymbol pre m post,
     lookup_minimal_symbol_by_pc object_files pc = Some tsymbol ∧
     MSYMBOL_TYPE tsymbol = mst_solib_trampoline ∧
     scan = pre ++ m :: post ∧
     text_match (SYMBOL_NAME tsymbol) m = true ∧
     (∀ x, x ∈ pre → text_match (SYMBOL_NAME tsymbol) x = false) ∧
     SYMBOL_VALUE_ADDRESS m ≠ 0%N ∧
     result = SYMBOL_VALUE_ADDRESS m).
Proof.
  intros scan result. subst result.
  unfold find_solib_trampoline_target, lookup_solib_trampoline_symbol_by_pc.
  split; [|split; [|split]].
  - intros tsymbol pre m post -> Htype Hscan Hm Hpre.
    rewrite decide_True by done.
    rewrite (text_target_flat _ _ 0). fold scan. rewrite Hscan.
    by rewrite first_text_address_first.
  - intros Hnone.
    destruct (lookup_minimal_symbol_by_pc object_files pc) as [tsymbol|]; [|done].
    case_decide as Htype; [|done].
    rewrite (text_target_flat _ _ 0). fold scan.
    rewrite first_text_address_none; [done|]. by apply Hnone.
  - destruct (lookup_minimal_symbol_by_pc object_files pc) as [tsymbol|]; [|done].
    case_decide as Htype; [|done].
    rewrite (text_target_flat _ _ 0). fold scan.
    destruct (first_text_address (SYMBOL_NAME tsymbol) scan) as [a|] eqn:Ha; [|done].
    intros Hne. apply first_text_address_some in Ha as (pre & m & post & ? & ? & ? & ->).
    by exists tsymbol, pre, m, post.
  - intros (tsymbol & pre & m & post & -> & Htype & Hscan & Hm & Hpre & Hne & Hres).
    rewrite decide_True in * by done.
    rewrite (text_target_flat _ _ 0) in *. fold scan in Hres |- *.
    rewrite Hscan, first_text_address_first in * by done. done.
Qed.

(** *** The terminating null symbol *)

Lemma named_prefix_stop pre m post :
  SYMBOL_NAME m = None → named_prefix (pre ++ m :: post) = named_prefix pre.
Proof.
  intros Hm. induction pre as [|x pre IH]; simpl.
  - rewrite decide_False; [done|]. unfold named. rewrite Hm. by intros [].
  - case_decide; [by rewrite IH|done].
Qed.

Lemma named_prefix_all l : Forall named l → named_prefix l = l.
Proof.
  induction 1 as [|x l Hx _ IH]; simpl; [done|]. by rewrite decide_True, IH.
Qed.

Lemma merge_adjacent_elem l x :
  x ∈ merge_adjacent l →
  ∃ y, y ∈ l ∧ SYMBOL_VALUE_ADDRESS x = SYMBOL_VALUE_ADDRESS y ∧
       SYMBOL_NAME x = SYMBOL_NAME y.
Proof. destruct l; [by intros ?%elem_of_nil|]. apply merge_run_elem. Qed.

Lemma installed_entries_named obj st :
  Forall named (gather_minimal_symbols obj st) →
  Forall named (SYMBOL_INIT_DEMANGLED_NAME <$> installed_entries obj st).
Proof.
  rewrite !Forall_forall. intros Hg x (y & -> & Hy)%list_elem_of_fmap.
  unfold named. rewrite SYMBOL_INIT_DEMANGLED_NAME_name.
  apply merge_adjacent_elem in Hy as (z & Hz & _ & ->).
  apply Hg. by rewrite <- (qsort_Permutation compare_minimal_symbols).
Qed.

(** C10.  When [install_minimal_symbols] publishes a table (the count of
    collected symbols is positive), the slot right after the counted entries
    holds the terminator: a symbol whose name is NULL, whose address is 0
    and whose type is [mst_unknown] (its info is NULL and its language
    [language_unknown] as well, while its section and file name are
    whatever the slot held before), and the table ends there;
    [lookup_minimal_symbol] leaves the scan of a table at the first symbol
    without a name, so that on an installed table (of named symbols) it sees
    the counted entries and nothing else. *)
Theorem install_minimal_symbols_null_symbol (obj : objfile) (st : collection) :
  0 < msym_count st →
  let o' := fst (install_minimal_symbols obj st) in
  (∃ t z, msymbols o' = Some t ∧
          length t = S (minimal_symbol_count o') ∧
          t !! minimal_symbol_count o' = Some z ∧
          SYMBOL_NAME z = None ∧
          SYMBOL_VALUE_ADDRESS z = 0%N ∧
          MSYMBOL_TYPE z = mst_unknown ∧
          MSYMBOL_INFO z = 0%N ∧
          SYMBOL_LANGUAGE z = language_unknown ∧
          SYMBOL_SECTION z = SYMBOL_SECTION (stale_slot obj st) ∧
          filename z = filename (stale_slot obj st) ∧
          (Forall named (gather_minimal_symbols obj st) →
           named_prefix t = table_entries o')) ∧
  (∀ name sfile pre m post s,
     SYMBOL_NAME m = None →
     name_scan_table name sfile (pre ++ m :: post) s
     = name_scan_table name sfile pre s).
Proof.
  intros Hc o'. split.
  - pose proof (install_table_entries obj st Hc) as Hentries.
    subst o'. rewrite install_minimal_symbols_publishes in * by done.
    cbn [msymbols minimal_symbol_count].
    eexists _, (null_terminator (stale_slot obj st)). split; [done|].
    split; [rewrite length_app, length_fmap; simpl; lia|].
    split.
    { rewrite lookup_app_r by (by rewrite length_fmap).
      by rewrite length_fmap, Nat.sub_diag. }
    split_and!; [done..|].
    intros Hnamed. rewrite Hentries.
    rewrite named_prefix_stop by done.
    by apply named_prefix_all, installed_entries_named.
  - intros name sfile pre m post s Hm.
    by rewrite !name_scan_table_flat, named_prefix_stop.
Qed.

(** *** The filter of compiler markers *)

Lemma STREQN_prefix s :
  STREQN s "__gnu_compiled" 14 = String.prefix "__gnu_compiled" s.
Proof.
  unfold STREQN. apply eq_true_iff_eq.
  rewrite bool_decide_eq_true, prefix_correct. done.
Qed.


(** C9 (as amended).  A [mst_file_text] symbol is dropped, the collection
    being left as it was, when its name begins with 'g' and is one of the two
    flag symbols, compared as given, or when its name, after one leading
    symbol character of the target has been skipped, starts with
    "__gnu_compiled". *)
Theorem prim_record_drops_compiler_markers (r : msym_request) (obj : objfile)
    (st : collection) :
  req_ms_type r = mst_file_text →
  (first_char (req_name r) = "g"%char ∧
   (req_name r = GCC_COMPILED_FLAG_SYMBOL ∨
    req_name r = GCC2_COMPILED_FLAG_SYMBOL)) ∨
  String.prefix "__gnu_compiled"
    (skip_leading_char (get_symbol_leading_char (obfd obj)) (req_name r)) = true →
  prim_record_minimal_symbol_and_info r obj st = (st, None).
Proof.
  intros Htype Hname. unfold prim_record_minimal_symbol_and_info.
  assert (is_compiler_marker (req_name r) (req_ms_type r) obj = true) as ->; [|done].
  unfold is_compiler_marker. rewrite Htype, STREQN_prefix.
  rewrite bool_decide_eq_true_2 by done. cbn [andb].
  destruct Hname as [[Hg Hflag]| ->]; [|by rewrite orb_true_r].
  rewrite bool_decide_eq_true_2 by done. cbn [andb].
  destruct Hflag as [<-|<-].
  - by rewrite bool_decide_eq_true_2.
  - rewrite (bool_decide_eq_true_2 (req_name r = req_name r)) by done.
    by rewrite orb_true_r.
Qed.

(** *** The collection buffer and the gathered array *)

Lemma filled_by_init : filled_by [] init_minimal_symbol_collection.
Proof.
  unfold filled_by; simpl. split_and!; try done; intros c Hc; by apply elem_of_nil in Hc.
Qed.

Lemma filled_by_record recorded st r obj :
  filled_by recorded st →
  is_compiler_marker (req_name r) (req_ms_type r) obj = false →
  filled_by (recorded ++ [fill_slot r])
    (fst (prim_record_minimal_symbol_and_info r obj st)).
Proof.
  intros (Hrec & Hcount & Hindex & Hlen & Hfull) Hmarker.
  unfold prim_record_minimal_symbol_and_info. rewrite Hmarker.
  destruct st as [chain index count]; cbn [msym_bunch msym_bunch_index msym_count] in *.
  case_decide as Hidx; cbn [msym_bunch msym_bunch_index msym_count fst].
  - unfold store_slot. cbn [take drop app].
    unfold filled_by; cbn [msym_bunch msym_bunch_index msym_count tail].
    rewrite reverse_cons, concat_app, Hrec. simpl.
    split; [done|]. split; [rewrite length_app; simpl; lia|].
    split; [done|]. split.
    + intros b [->|Hb]%elem_of_cons; [unfold BUNCH_SIZE; simpl; lia|by apply Hlen].
    + intros b Hb. destruct chain as [|b0 older]; [by apply elem_of_nil in Hb|].
      apply elem_of_cons in Hb as [->|Hb]; [congruence|]. by apply Hfull.
  - destruct chain as [|b older]; [congruence|].
    cbn [fst msym_bunch msym_bunch_index msym_count]. subst index.
    unfold store_slot. rewrite take_ge, drop_ge by lia.
    unfold filled_by; cbn [msym_bunch msym_bunch_index msym_count tail] in *.
    rewrite reverse_cons, concat_app in Hrec |- *. simpl in Hrec |- *.
    rewrite app_nil_r in Hrec |- *.
    split; [by rewrite <- Hrec, !app_assoc|].
    split; [rewrite length_app; simpl; lia|].
    split; [rewrite length_app; simpl; lia|]. split.
    + intros b' [->|Hb]%elem_of_cons.
      * specialize (Hlen b (list_elem_of_here _ _)). rewrite length_app. simpl. lia.
      * apply Hlen. by right.
    + done.
Qed.

Lemma record_all_filled_by rs obj :
  ∀ recorded st,
    filled_by recorded st →
    filled_by (recorded ++ (fill_slot <$> accepted obj rs)) (record_all rs obj st).
Proof.
  unfold accepted.
  induction rs as [|r rs IH]; intros recorded st Hst; simpl.
  { by rewrite app_nil_r. }
  rewrite filter_cons.
  destruct (is_compiler_marker (req_name r) (req_ms_type r) obj) eqn:Hmarker.
  - rewrite decide_False by done.
    assert (fst (prim_record_minimal_symbol_and_info r obj st) = st) as ->
      by (unfold prim_record_minimal_symbol_and_info; by rewrite Hmarker).
    by apply IH.
  - rewrite decide_True by done. rewrite fmap_cons, cons_middle, app_assoc.
    apply IH. by apply filled_by_record.
Qed.

Lemma copy_bunches_full leading_char older :
  (∀ b, b ∈ older → length b = BUNCH_SIZE) →
  copy_bunches leading_char older BUNCH_SIZE
  = copy_in leading_char <$> concat older.
Proof.
  induction older as [|b older IH]; intros Hfull; simpl; [done|].
  rewrite fmap_app, take_ge by (rewrite (Hfull b); [done|left]).
  f_equal. apply IH. intros b' Hb'. apply Hfull. by right.
Qed.

Lemma copy_bunches_filled_by leading_char recorded st :
  filled_by recorded st →
  copy_bunches leading_char (msym_bunch st) (msym_bunch_index st)
  = copy_in leading_char <$> concat (msym_bunch st).
Proof.
  intros (_ & _ & Hindex & _ & Hfull).
  destruct (msym_bunch st) as [|b older]; simpl in *; [done|].
  rewrite Hindex, take_ge, fmap_app by done.
  f_equal. by apply copy_bunches_full.
Qed.

Lemma concat_reverse_Permutation {A} (ls : list (list A)) :
  concat (reverse ls) ≡ₚ concat ls.
Proof.
  induction ls as [|l ls IH]; simpl; [done|].
  rewrite reverse_cons, concat_app. simpl.
  by rewrite app_nil_r, IH, (comm (++)).
Qed.

Lemma copy_in_language leading_char m :
  SYMBOL_LANGUAGE (copy_in leading_char m) = language_auto.
Proof. unfold copy_in. simpl. destruct (SYMBOL_NAME m); [case_bool_decide|]; done. Qed.

Lemma copy_in_address leading_char m :
  SYMBOL_VALUE_ADDRESS (copy_in leading_char m) = SYMBOL_VALUE_ADDRESS m.
Proof. unfold copy_in. simpl. destruct (SYMBOL_NAME m); [case_bool_decide|]; done. Qed.

Lemma copy_in_type leading_char m :
  MSYMBOL_TYPE (copy_in leading_char m) = MSYMBOL_TYPE m.
Proof. unfold copy_in. simpl. destruct (SYMBOL_NAME m); [case_bool_decide|]; done. Qed.

Lemma copy_in_rest leading_char m :
  SYMBOL_CPLUS_DEMANGLED_NAME (copy_in leading_char m) = SYMBOL_CPLUS_DEMANGLED_NAME m ∧
  SYMBOL_SECTION (copy_in leading_char m) = SYMBOL_SECTION m ∧
  MSYMBOL_INFO (copy_in leading_char m) = MSYMBOL_INFO m ∧
  filename (copy_in leading_char m) = filename m.
Proof. unfold copy_in. simpl. destruct (SYMBOL_NAME m); [case_bool_decide|]; done. Qed.

Lemma copy_in_name_stripped leading_char m rest :
  SYMBOL_NAME m = Some (String leading_char rest) →
  SYMBOL_NAME (copy_in leading_char m) = Some rest.
Proof.
  destruct m; simpl; intros ->. unfold copy_in; simpl.
  by rewrite bool_decide_eq_true_2.
Qed.

Lemma copy_in_name_kept leading_char m s :
  SYMBOL_NAME m = Some s → first_char s ≠ leading_char →
  SYMBOL_NAME (copy_in leading_char m) = Some s.
Proof.
  destruct m; simpl; intros -> ?. unfold copy_in; simpl.
  by rewrite bool_decide_eq_false_2.
Qed.

Lemma gather_after_record_all rs obj :
  let st := record_all rs obj init_minimal_symbol_collection in
  filled_by (fill_slot <$> accepted obj rs) st ∧
  gather_minimal_symbols obj st
  = table_entries obj
    ++ (copy_in (get_symbol_leading_char (obfd obj)) <$> concat (msym_bunch st)).
Proof.
  intros st.
  pose proof (record_all_filled_by rs obj [] _ filled_by_init) as Hst.
  rewrite app_nil_l in Hst. fold st in Hst. split; [done|].
  unfold gather_minimal_symbols, table_entries. f_equal.
  by apply (copy_bunches_filled_by _ (fill_slot <$> accepted obj rs)).
Qed.

(** C6 (as amended).  The array handed to the sort holds the counted
    entries of the existing table, unchanged and in their slots, followed by
    the recorded symbols bunch by bunch, the bunch being filled first and
    then the older ones back to the first, in recording order within a
    bunch; a bunch holds at most [BUNCH_SIZE] symbols and all but the one
    being filled are full, so that the symbols follow in recording order when
    there are no more than [BUNCH_SIZE] of them.  Each copy is tagged
    [language_auto]; a name that begins with the leading symbol character of
    the object file loses it, one that begins otherwise is kept; nothing else
    of the symbol changes. *)
Theorem gather_minimal_symbols_order (rs : list msym_request) (obj : objfile) :
  let st := record_all rs obj init_minimal_symbol_collection in
  let leading_char := get_symbol_leading_char (obfd obj) in
  let recorded := fill_slot <$> accepted obj rs in
  (∃ chain,
     concat (reverse chain) = recorded ∧
     (∀ b, b ∈ chain → 0 < length b ≤ BUNCH_SIZE) ∧
     (∀ b, b ∈ tail chain → length b = BUNCH_SIZE) ∧
     gather_minimal_symbols obj st
     = table_entries obj ++ (copy_in leading_char <$> concat chain)) ∧
  (length recorded ≤ BUNCH_SIZE →
   gather_minimal_symbols obj st
   = table_entries obj ++ (copy_in leading_char <$> recorded)) ∧
  (∀ m,
     SYMBOL_LANGUAGE (copy_in leading_char m) = language_auto ∧
     (∀ rest, SYMBOL_NAME m = Some (String leading_char rest) →
              SYMBOL_NAME (copy_in leading_char m) = Some rest) ∧
     (∀ s, SYMBOL_NAME m = Some s → first_char s ≠ leading_char →
           SYMBOL_NAME (copy_in leading_char m) = Some s) ∧
     SYMBOL_VALUE_ADDRESS (copy_in leading_char m) = SYMBOL_VALUE_ADDRESS m ∧
     MSYMBOL_TYPE (copy_in leading_char m) = MSYMBOL_TYPE m ∧
     SYMBOL_CPLUS_DEMANGLED_NAME (copy_in leading_char m)
     = SYMBOL_CPLUS_DEMANGLED_NAME m ∧
     SYMBOL_SECTION (copy_in leading_char m) = SYMBOL_SECTION m ∧
     MSYMBOL_INFO (copy_in leading_char m) = MSYMBOL_INFO m ∧
     filename (copy_in leading_char m) = filename m).
Proof.
  intros st leading_char recorded.
  destruct (gather_after_record_all rs obj) as [Hst Hgather].
  fold st recorded leading_char in Hst, Hgather.
  destruct Hst as (Hrec & Hcount & Hindex & Hlen & Hfull).
  split; [|split].
  - by exists (msym_bunch st).
  - intros Hsmall. rewrite Hgather. do 2 f_equal.
    destruct (msym_bunch st) as [|b [|b' older]]; simpl in *; [done| |].
    + rewrite <- Hrec. by rewrite app_nil_r.
    + exfalso. rewrite <- Hrec in Hsmall.
      rewrite !reverse_cons, !concat_app, !length_app in Hsmall. simpl in Hsmall.
      rewrite !length_app in Hsmall. simpl in Hsmall.
      specialize (Hlen b (list_elem_of_here _ _)).
      specialize (Hfull b' (list_elem_of_here _ _)). lia.
  - intros m. pose proof (copy_in_rest leading_char m) as (? & ? & ? & ?).
    repeat split;
      auto using copy_in_language, copy_in_address, copy_in_type,
                 copy_in_name_stripped, copy_in_name_kept.
Qed.

(** *** Recording, installing, then looking up by address *)




(** *** The three statements about the installed table *)

(** C1 (as amended).  On the array [msymbol[0 .. mcount)],
    [compact_minimal_symbols] leaves in [msymbol[0 .. count)] the sequence
    [merge_adjacent] of it, returns its length and does not touch the array
    from [mcount] on.  That sequence is built from left to right: an entry is
    compacted out exactly when the entry right after it has the same address
    and the same name; it is the LATER entry of such a pair that stays in the
    table, with all its fields but the type, and with the type of the entry
    compacted out when its own is [mst_unknown]. *)
Theorem compact_minimal_symbols_keeps_later (msymbol : list minimal_symbol)
    (mcount : nat) :
  mcount ≤ length msymbol →
  (compacted msymbol mcount = merge_adjacent (take mcount msymbol) ∧
   snd (compact_minimal_symbols msymbol mcount)
   = length (merge_adjacent (take mcount msymbol)) ∧
   drop mcount (fst (compact_minimal_symbols msymbol mcount))
   = drop mcount msymbol) ∧
  (∀ a b rest,
     merge_adjacent (a :: b :: rest)
     = if same_address_and_name a b
       then merge_adjacent (absorb a b :: rest)
       else a :: merge_adjacent (b :: rest)) ∧
  (∀ a, merge_adjacent [a] = [a]) ∧
  (∀ a b,
     same_address_and_name a b = true ↔
     SYMBOL_VALUE_ADDRESS a = SYMBOL_VALUE_ADDRESS b ∧
     ∃ n, SYMBOL_NAME a = Some n ∧ SYMBOL_NAME b = Some n) ∧
  (∀ out kept,
     absorb out kept
     = set_MSYMBOL_TYPE kept
         (if decide (MSYMBOL_TYPE kept = mst_unknown)
          then MSYMBOL_TYPE out else MSYMBOL_TYPE kept)).
Proof.
  intros Hle. split; [|split; [done|split; [done|split]]].
  - unfold compacted.
    destruct (compact_minimal_symbols_spec msymbol mcount Hle) as (a & -> & _ & Ha & Hd).
    done.
  - apply same_address_and_name_true.
  - intros out kept. unfold absorb. case_decide; [done|]. by destruct kept.
Qed.

(** C2 (as amended).  In a table published by [install_minimal_symbols] no
    entry is followed immediately by an entry of the same address and the
    same name. *)
Theorem install_no_adjacent_duplicates (obj : objfile) (st : collection) :
  0 < msym_count st →
  ∀ i a b,
    table_entries (fst (install_minimal_symbols obj st)) !! i = Some a →
    table_entries (fst (install_minimal_symbols obj st)) !! S i = Some b →
    ¬ (SYMBOL_VALUE_ADDRESS a = SYMBOL_VALUE_ADDRESS b ∧
       ∃ n, SYMBOL_NAME a = Some n ∧ SYMBOL_NAME b = Some n).
Proof.
  intros Hc i a b. rewrite install_table_entries by done.
  rewrite !list_lookup_fmap.
  destruct (installed_entries obj st !! i) as [a0|] eqn:Ha; [|done].
  destruct (installed_entries obj st !! S i) as [b0|] eqn:Hb; [|done].
  intros [= <-] [= <-].
  rewrite !SYMBOL_INIT_DEMANGLED_NAME_address, !SYMBOL_INIT_DEMANGLED_NAME_name.
  rewrite <- same_address_and_name_true.
  by rewrite (merge_adjacent_adjacent _ _ _ _ Ha Hb).
Qed.

(** C3.  In a table published by [install_minimal_symbols], the address of
    every counted entry is at most (as unsigned integers) the address of the
    counted entry that follows it. *)
Theorem install_sorted_by_address (obj : objfile) (st : collection) :
  0 < msym_count st →
  ∀ i a b,
    table_entries (fst (install_minimal_symbols obj st)) !! i = Some a →
    table_entries (fst (install_minimal_symbols obj st)) !! S i = Some b →
    (SYMBOL_VALUE_ADDRESS a ≤ SYMBOL_VALUE_ADDRESS b)%N.
Proof.
  intros Hc i a b Ha Hb.
  by apply (sorted_by_address_adjacent _ i a b (install_table_sorted obj st Hc)).
Qed.

(** ** Further properties of the routines *)

(** *** The comparison function *)

(** X1.  [compare_minimal_symbols] is a comparison function as [qsort]
    needs one: its value is -1, 0 or 1; swapping the arguments negates it;
    it is 0 exactly for equal addresses and negative exactly when the first
    address is the smaller one, as unsigned numbers; and "not greater" is
    transitive. *)
Theorem compare_minimal_symbols_consistent (a b c : minimal_symbol) :
  (compare_minimal_symbols a b = (-1)%Z ∨ compare_minimal_symbols a b = 0%Z ∨
   compare_minimal_symbols a b = 1%Z) ∧
  compare_minimal_symbols a b = (- compare_minimal_symbols b a)%Z ∧
  (compare_minimal_symbols a b = 0%Z ↔
   SYMBOL_VALUE_ADDRESS a = SYMBOL_VALUE_ADDRESS b) ∧
  ((compare_minimal_symbols a b < 0)%Z ↔
   (SYMBOL_VALUE_ADDRESS a < SYMBOL_VALUE_ADDRESS b)%N) ∧
  ((compare_minimal_symbols a b ≤ 0)%Z → (compare_minimal_symbols b c ≤ 0)%Z →
   (compare_minimal_symbols a c ≤ 0)%Z).
Proof.
  unfold compare_minimal_symbols.
  repeat case_decide; split_and!; try (split; intros); auto; lia.
Qed.

(** *** Recording *)

Lemma is_compiler_marker_other_type name ms_type obj :
  ms_type ≠ mst_file_text → is_compiler_marker name ms_type obj = false.
Proof. intros Ht. unfold is_compiler_marker. by rewrite bool_decide_eq_false_2. Qed.

(** X2.  In a collection built from [init_minimal_symbol_collection], a
    request that is not of type [mst_file_text], or that the marker test
    lets through, is stored: the symbol returned carries the name, address,
    type, info and section of the request and the language
    [language_unknown], the count grows by one, and the collection holds the
    symbols recorded before followed by the new one. *)
Theorem prim_record_appends (r : msym_request) (obj : objfile)
    (st : collection) (recorded : list minimal_symbol) :
  filled_by recorded st →
  req_ms_type r ≠ mst_file_text ∨
  is_compiler_marker (req_name r) (req_ms_type r) obj = false →
  ∃ msymbol st',
    prim_record_minimal_symbol_and_info r obj st = (st', Some msymbol) ∧
    msymbol = mk_msymbol (Some (req_name r)) (req_address r) language_unknown
                None (req_section r) (req_info r) None (req_ms_type r) ∧
    msym_count st' = S (msym_count st) ∧
    filled_by (recorded ++ [msymbol]) st'.
Proof.
  intros Hst Hok.
  assert (Hmarker : is_compiler_marker (req_name r) (req_ms_type r) obj = false).
  { destruct Hok as [Ht|Hm]; [by apply is_compiler_marker_other_type|done]. }
  pose proof (filled_by_record recorded st r obj Hst Hmarker) as Hst'.
  destruct Hst as (_ & _ & Hindex & _).
  unfold prim_record_minimal_symbol_and_info in *. rewrite Hmarker in *.
  destruct st as [chain index count]; cbn [msym_bunch msym_bunch_index msym_count] in *.
  case_decide as Hidx; cbn [msym_bunch msym_bunch_index msym_count fst] in *.
  - eexists _, _. split; [reflexivity|]. by split_and!.
  - destruct chain as [|b older]; [congruence|].
    eexists _, _. split; [reflexivity|]. by split_and!.
Qed.

Lemma length_concat_full (older : list (list minimal_symbol)) :
  (∀ b, b ∈ older → length b = BUNCH_SIZE) →
  length (concat older) = BUNCH_SIZE * length older.
Proof.
  induction older as [|b older IH]; intros Hfull; simpl; [lia|].
  rewrite length_app, (Hfull b) by left.
  rewrite IH by (intros c Hc; apply Hfull; by right).
  unfold BUNCH_SIZE. lia.
Qed.

Lemma filled_by_length recorded st :
  filled_by recorded st →
  length recorded
  = match msym_bunch st with
    | [] => 0
    | b :: older => length b + BUNCH_SIZE * length older
    end.
Proof.
  intros (Hrec & _ & _ & _ & Hfull). rewrite <- Hrec.
  rewrite concat_reverse_Permutation.
  destruct (msym_bunch st) as [|b older]; [done|]. simpl in *.
  by rewrite length_app, length_concat_full.
Qed.

(** X3.  After any sequence of requests recorded from
    [init_minimal_symbol_collection], [msym_count] is the number of requests
    that passed the marker test; the chain has as many bunches as that
    number needs at [BUNCH_SIZE] symbols a bunch, none of them empty and none
    holding more than [BUNCH_SIZE]; and [msym_bunch_index] is the filling of
    the current bunch, at most [BUNCH_SIZE] (it is [BUNCH_SIZE] when there is
    no bunch yet). *)
Theorem record_all_counts (rs : list msym_request) (obj : objfile) :
  let st := record_all rs obj init_minimal_symbol_collection in
  let n := length (accepted obj rs) in
  msym_count st = n ∧
  length (msym_bunch st) = (n + (BUNCH_SIZE - 1)) / BUNCH_SIZE ∧
  (∀ b, b ∈ msym_bunch st → 0 < length b ≤ BUNCH_SIZE) ∧
  msym_bunch_index st ≤ BUNCH_SIZE ∧
  msym_bunch_index st
  = match msym_bunch st with b :: _ => length b | [] => BUNCH_SIZE end.
Proof.
  intros st n.
  pose proof (record_all_filled_by rs obj [] _ filled_by_init) as Hst.
  rewrite app_nil_l in Hst. fold st in Hst.
  pose proof (filled_by_length _ _ Hst) as Hlen. rewrite length_fmap in Hlen.
  fold n in Hlen.
  destruct Hst as (_ & Hcount & Hindex & Hbound & _).
  rewrite length_fmap in Hcount. fold n in Hcount.
  split; [done|]. split; [|split; [done|split; [|done]]].
  - destruct (msym_bunch st) as [|b older]; [by rewrite Hlen|].
    specialize (Hbound b (list_elem_of_here _ _)).
    rewrite Hlen. simpl length. unfold BUNCH_SIZE in *.
    apply (Nat.div_unique _ _ _ (length b - 1)); lia.
  - rewrite Hindex. destruct (msym_bunch st) as [|b older]; [done|].
    by apply (Hbound b), list_elem_of_here.
Qed.

(** *** Compaction *)

Lemma no_adjacent_duplicate_cons a b l :
  no_adjacent_duplicate (a :: b :: l) ↔
  same_address_and_name a b = false ∧ no_adjacent_duplicate (b :: l).
Proof.
  unfold no_adjacent_duplicate. split.
  - intros H. split; [by apply (H 0)|].
    intros i x y Hx Hy. by apply (H (S i)).
  - intros [Hab H] [|i] x y; simpl.
    + by intros [= <-] [= <-].
    + apply H.
Qed.

Lemma merge_run_length cur rest :
  0 < length (merge_run cur rest) ≤ S (length rest) ∧
  (length (merge_run cur rest) = S (length rest) ↔
   no_adjacent_duplicate (cur :: rest)).
Proof.
  revert cur. induction rest as [|nxt rest IH]; intros cur; simpl.
  { split; [lia|]. split; [|done]. intros _ [|i] a b; simpl; done. }
  rewrite no_adjacent_duplicate_cons.
  destruct (same_address_and_name cur nxt) eqn:Hdup.
  - destruct (IH (absorb cur nxt)) as [Hb _]. split; [lia|].
    split; [lia|]. by intros [? _].
  - destruct (IH nxt) as [Hb Hiff]. simpl. split; [lia|].
    rewrite <- Hiff. split; [intros; split; [done|lia] | intros [_ ?]; lia].
Qed.

Lemma merge_run_no_duplicate cur rest :
  no_adjacent_duplicate (cur :: rest) → merge_run cur rest = cur :: rest.
Proof.
  revert cur. induction rest as [|nxt rest IH]; intros cur; simpl; [done|].
  rewrite no_adjacent_duplicate_cons. intros [-> Hrest]. f_equal. by apply IH.
Qed.

Lemma merge_adjacent_no_duplicate l :
  no_adjacent_duplicate l → merge_adjacent l = l.
Proof. destruct l; [done|]. apply merge_run_no_duplicate. Qed.

Lemma merge_adjacent_result_no_duplicate l :
  no_adjacent_duplicate (merge_adjacent l).
Proof. intros i a b. apply merge_adjacent_adjacent. Qed.

(** X4.  On [mcount] entries, [compact_minimal_symbols] returns 0 when
    [mcount] is 0 and otherwise a count between 1 and [mcount]; it returns
    [mcount] exactly when no entry is followed by a duplicate of it, and
    then the entries are left as they were; and compacting the compacted
    entries again changes nothing. *)
Theorem compact_minimal_symbols_count (msymbol : list minimal_symbol)
    (mcount : nat) :
  mcount ≤ length msymbol →
  let n := snd (compact_minimal_symbols msymbol mcount) in
  (mcount = 0 → n = 0) ∧
  (0 < mcount → 0 < n ≤ mcount) ∧
  (n = mcount ↔ no_adjacent_duplicate (take mcount msymbol)) ∧
  (no_adjacent_duplicate (take mcount msymbol) →
   compacted msymbol mcount = take mcount msymbol) ∧
  compacted (compacted msymbol mcount) n = compacted msymbol mcount ∧
  snd (compact_minimal_symbols (compacted msymbol mcount) n) = n.
Proof.
  intros Hle n. subst n. unfold compacted.
  destruct (compact_minimal_symbols_spec msymbol mcount Hle) as (a & -> & _ & Ha & _).
  cbn [snd]. rewrite Ha.
  set (l := take mcount msymbol).
  assert (Hl : length l = mcount) by (unfold l; rewrite length_take; lia).
  set (out := merge_adjacent l).
  assert (Hout : merge_adjacent out = out).
  { apply merge_adjacent_no_duplicate, merge_adjacent_result_no_duplicate. }
  destruct (compact_minimal_symbols_spec out (length out)) as (a' & Ha' & _ & Ha'' & _);
    [lia|].
  rewrite (take_ge out (length out)) in Ha', Ha'' by lia.
  rewrite Hout in Ha', Ha''. rewrite Ha'. cbn [snd].
  split_and!.
  - intros ->. unfold out. destruct l; [done|simpl in Hl; lia].
  - intros Hpos. unfold out. destruct l as [|cur rest]; [simpl in Hl; lia|].
    simpl in Hl |- *. destruct (merge_run_length cur rest) as [? _]. lia.
  - unfold out. destruct l as [|cur rest].
    + simpl in *. split; [intros _ [|i] x y; done | done].
    + simpl in Hl |- *. destruct (merge_run_length cur rest) as [_ Hiff].
      rewrite <- Hiff. lia.
  - intros Hnd. unfold out. by apply merge_adjacent_no_duplicate.
  - done.
  - done.
Qed.

Lemma absorb_set_type out kept t :
  set_MSYMBOL_TYPE (absorb out kept) t = set_MSYMBOL_TYPE kept t.
Proof. unfold absorb. by case_decide. Qed.

Lemma absorb_type out kept :
  MSYMBOL_TYPE (absorb out kept) = carry_type (MSYMBOL_TYPE out) (MSYMBOL_TYPE kept).
Proof. unfold absorb, carry_type. by case_decide. Qed.

Lemma merge_run_one_symbol rest :
  ∀ cur,
    Forall (λ m, same_address_and_name cur m = true) rest →
    merge_run cur rest
    = [set_MSYMBOL_TYPE (default cur (last rest))
         (foldl carry_type (MSYMBOL_TYPE cur) (MSYMBOL_TYPE <$> rest))].
Proof.
  induction rest as [|nxt rest IH]; intros cur Hall; simpl.
  { by destruct cur. }
  apply Forall_cons in Hall as [Hdup Hall]. rewrite Hdup.
  rewrite IH.
  - rewrite absorb_type. f_equal.
    destruct rest as [|x rest'] using rev_ind.
    + simpl. apply absorb_set_type.
    + by rewrite last_cons, !last_snoc.
  - eapply Forall_impl; [exact Hall|]. intros m Hm.
    apply same_address_and_name_true in Hdup as (Ha & n & Hn1 & Hn2).
    apply same_address_and_name_true in Hm as (Ha' & n' & Hn1' & Hn2').
    apply same_address_and_name_true.
    rewrite absorb_address, absorb_name. split; [congruence|].
    exists n'. split; congruence.
Qed.

Lemma foldl_carry_type t ts :
  foldl carry_type t ts = default t (last (filter (λ t, t ≠ mst_unknown) ts)).
Proof.
  induction ts as [|t' ts IH] using rev_ind; [done|].
  rewrite foldl_app, filter_app. cbn [foldl]. rewrite IH.
  unfold carry_type. case_decide as Ht'.
  - by rewrite filter_cons_False, filter_nil, app_nil_r by naive_solver.
  - by rewrite filter_cons_True, filter_nil, last_snoc by done.
Qed.

Lemma foldl_carry_type_last_known t ts :
  foldl carry_type t ts = last_known_type (t :: ts).
Proof.
  rewrite foldl_carry_type. unfold last_known_type.
  rewrite filter_cons. case_decide as Ht.
  - rewrite last_cons. by destruct (last _).
  - by rewrite Ht.
Qed.

(** X5.  A run of entries that all have one address and one name is
    compacted to a single entry: the last entry of the run, typed with the
    last type of the run that is not [mst_unknown] (and [mst_unknown] if
    there is none). *)
Theorem compact_run_of_duplicates (l : list minimal_symbol) (z : minimal_symbol)
    (address : CORE_ADDR) (name : string) :
  last l = Some z →
  Forall (λ m, SYMBOL_VALUE_ADDRESS m = address ∧ SYMBOL_NAME m = Some name) l →
  compacted l (length l)
  = [set_MSYMBOL_TYPE z (last_known_type (MSYMBOL_TYPE <$> l))] ∧
  snd (compact_minimal_symbols l (length l)) = 1.
Proof.
  intros Hz Hall.
  assert (Hm : merge_adjacent l
               = [set_MSYMBOL_TYPE z (last_known_type (MSYMBOL_TYPE <$> l))]).
  { destruct l as [|cur rest]; [done|]. simpl.
    apply Forall_cons in Hall as [[Ha Hn] Hall].
    rewrite merge_run_one_symbol.
    - rewrite foldl_carry_type_last_known. do 2 f_equal.
      rewrite last_cons in Hz. destruct (last rest); by simplify_eq.
    - eapply Forall_impl; [exact Hall|]. intros m [Ha' Hn'].
      apply same_address_and_name_true. split; [congruence|]. by exists name. }
  split.
  - by rewrite compacted_merge_adjacent.
  - destruct (compact_minimal_symbols_spec l (length l)) as (a & Hc & _); [lia|].
    rewrite (take_ge l (length l)) in Hc by lia. by rewrite Hc, Hm.
Qed.

(** *** Installation *)

Lemma same_symbol_refl x : same_symbol x x.
Proof. done. Qed.

(** Every entry of the input is represented among the survivors. *)
Lemma merge_run_keeps cur rest x :
  x ∈ cur :: rest → ∃ y, y ∈ merge_run cur rest ∧ same_symbol y x.
Proof.
  revert cur x. induction rest as [|nxt rest IH]; intros cur x Hx; simpl.
  { apply list_elem_of_singleton in Hx as ->. exists cur. split; [left|done]. }
  destruct (same_address_and_name cur nxt) eqn:Hdup.
  - apply same_address_and_name_true in Hdup as (Ha & n & Hn1 & Hn2).
    assert (Hab : same_symbol (absorb cur nxt) nxt ∧ same_symbol (absorb cur nxt) cur).
    { unfold same_symbol. rewrite absorb_address, absorb_name. split_and!; congruence. }
    destruct Hab as [Hnxt Hcur].
    apply elem_of_cons in Hx as [->|[->|Hx]%elem_of_cons].
    + destruct (IH (absorb cur nxt) (absorb cur nxt)) as (y & Hy & [? ?]); [left|].
      exists y. split; [done|]. destruct Hcur. split; congruence.
    + destruct (IH (absorb cur nxt) (absorb cur nxt)) as (y & Hy & [? ?]); [left|].
      exists y. split; [done|]. destruct Hnxt. split; congruence.
    + destruct (IH (absorb cur nxt) x) as (y & Hy & ?); [by right|]. by exists y.
  - apply elem_of_cons in Hx as [->|Hx].
    + exists cur. split; [left|done].
    + destruct (IH nxt x Hx) as (y & Hy & ?). exists y. split; [by right|done].
Qed.

Lemma merge_adjacent_keeps l x :
  x ∈ l → ∃ y, y ∈ merge_adjacent l ∧ same_symbol y x.
Proof. destruct l; [by intros ?%elem_of_nil|]. apply merge_run_keeps. Qed.

Lemma merge_adjacent_length l : length (merge_adjacent l) ≤ length l.
Proof.
  destruct l as [|cur rest]; [done|]. simpl.
  destruct (merge_run_length cur rest) as [? _]. lia.
Qed.

Lemma merge_adjacent_nonempty l : l ≠ [] → 0 < length (merge_adjacent l).
Proof.
  destruct l as [|cur rest]; [done|]. intros _. simpl.
  destruct (merge_run_length cur rest) as [? _]. lia.
Qed.

(** X6.  A table that [install_minimal_symbols] publishes holds the same
    symbols, by address and name, as the array that was gathered (the old
    entries and the buffered ones): every gathered symbol has an entry of its
    address and name in the table, and every entry has the address and name
    of a gathered symbol; the count never exceeds the number gathered. *)
Theorem install_keeps_every_symbol (obj : objfile) (st : collection) :
  0 < msym_count st →
  let o' := fst (install_minimal_symbols obj st) in
  let gathered := gather_minimal_symbols obj st in
  (∀ x, x ∈ gathered → ∃ y, y ∈ table_entries o' ∧ same_symbol y x) ∧
  (∀ y, y ∈ table_entries o' → ∃ x, x ∈ gathered ∧ same_symbol y x) ∧
  minimal_symbol_count o' = length (table_entries o') ∧
  minimal_symbol_count o' ≤ length gathered.
Proof.
  intros Hc o' gathered. subst o'.
  rewrite install_table_entries by done.
  rewrite install_minimal_symbols_publishes by done. cbn [minimal_symbol_count].
  unfold installed_entries. fold gathered.
  split_and!.
  - intros x Hx.
    rewrite <- (qsort_Permutation compare_minimal_symbols) in Hx.
    apply merge_adjacent_keeps in Hx as (y & Hy & Ha & Hn).
    exists (SYMBOL_INIT_DEMANGLED_NAME y). split; [by apply list_elem_of_fmap_2|].
    unfold same_symbol.
    by rewrite SYMBOL_INIT_DEMANGLED_NAME_address, SYMBOL_INIT_DEMANGLED_NAME_name.
  - intros y (y0 & -> & Hy0)%list_elem_of_fmap.
    apply merge_adjacent_elem in Hy0 as (x & Hx & Ha & Hn).
    exists x. split; [by rewrite <- (qsort_Permutation compare_minimal_symbols)|].
    unfold same_symbol.
    by rewrite SYMBOL_INIT_DEMANGLED_NAME_address, SYMBOL_INIT_DEMANGLED_NAME_name.
  - by rewrite length_fmap.
  - etrans; [apply merge_adjacent_length|].
    by rewrite (qsort_Permutation compare_minimal_symbols).
Qed.

Lemma install_searchable_nonempty obj st :
  0 < msym_count st → gather_minimal_symbols obj st ≠ [] →
  searchable (fst (install_minimal_symbols obj st)).
Proof.
  intros Hc Hne.
  pose proof (install_table_sorted obj st Hc) as Hs.
  unfold searchable, table_entries in *.
  rewrite install_minimal_symbols_publishes in * by done.
  cbn [msymbols minimal_symbol_count] in *.
  split; [|done]. rewrite length_app, length_fmap. simpl. split; [|lia].
  apply merge_adjacent_nonempty. intros Hq.
  apply Hne, Permutation_nil_r. rewrite <- Hq.
  symmetry. apply qsort_Permutation.
Qed.

Lemma record_all_gather_nonempty rs obj :
  0 < msym_count (record_all rs obj init_minimal_symbol_collection) →
  gather_minimal_symbols obj (record_all rs obj init_minimal_symbol_collection) ≠ [].
Proof.
  intros Hc.
  destruct (gather_after_record_all rs obj) as [(Hrec & Hcount & _) Hgather].
  rewrite Hgather. intros [_ Hnil]%app_eq_nil.
  apply fmap_nil_inv in Hnil.
  assert (Hlen : length (concat (reverse
                   (msym_bunch (record_all rs obj init_minimal_symbol_collection)))) = 0).
  { by rewrite concat_reverse_Permutation, Hnil. }
  rewrite Hrec in Hlen. lia.
Qed.

(** X7.  Installing what was recorded from
    [init_minimal_symbol_collection], when at least one request was stored,
    gives the object file a table that [lookup_minimal_symbol_by_pc] can
    search: it holds at least one symbol and no more than the old entries
    and the stored requests together, the array has a slot for each and one
    more, and the counted entries are in ascending order of address. *)
Theorem install_recorded_searchable (rs : list msym_request) (obj : objfile) :
  let st := record_all rs obj init_minimal_symbol_collection in
  0 < msym_count st →
  let o' := fst (install_minimal_symbols obj st) in
  searchable o' ∧
  1 ≤ minimal_symbol_count o'
    ≤ length (table_entries obj) + length (accepted obj rs) ∧
  (∃ t, msymbols o' = Some t ∧ length t = S (minimal_symbol_count o')) ∧
  sorted_by_address (table_entries o').
Proof.
  intros st Hc o'.
  pose proof (record_all_gather_nonempty rs obj Hc) as Hne. fold st in Hne.
  pose proof (install_searchable_nonempty obj st Hc Hne) as Hs. fold o' in Hs.
  pose proof (install_table_sorted obj st Hc) as Hsorted. fold o' in Hsorted.
  split; [done|]. split; [|split; [|done]].
  - subst o'. unfold searchable in Hs.
    rewrite install_minimal_symbols_publishes in * by done.
    cbn [msymbols minimal_symbol_count] in *. split; [lia|].
    etrans; [apply merge_adjacent_length|].
    rewrite (qsort_Permutation compare_minimal_symbols).
    destruct (gather_after_record_all rs obj) as [(Hrec & _) Hgather].
    fold st in Hrec, Hgather.
    rewrite Hgather, length_app, length_fmap.
    by rewrite <- concat_reverse_Permutation, Hrec, length_fmap.
  - subst o'. rewrite install_minimal_symbols_publishes by done.
    cbn [msymbols minimal_symbol_count]. eexists. split; [done|].
    rewrite length_app, length_fmap. simpl. lia.
Qed.

(** *** Lookup by name: what is returned, and when nothing is *)

Lemma SYMBOL_MATCHES_NAME_true m name :
  SYMBOL_MATCHES_NAME m name = true ↔ SYMBOL_NAME m = Some name.
Proof.
  unfold SYMBOL_MATCHES_NAME, STREQ. destruct (SYMBOL_NAME m) as [s|]; [|done].
  rewrite bool_decide_eq_true. split; congruence.
Qed.

Lemma name_result_None s :
  name_result s = None ↔
  found_symbol s = None ∧ found_file_symbol s = None ∧ trampoline_symbol s = None.
Proof.
  destruct s as [[?|] [?|] [?|]]; unfold name_result; simpl;
    (split; [try done; by intros _|by intros (? & ? & ?)]).
Qed.

Lemma search_sound_mono name sf l l' s :
  (∀ x, x ∈ l → x ∈ l') → search_sound name sf l s → search_sound name sf l' s.
Proof.
  intros Hl (Hg & Hf & Ht). split_and!; intros m Hm.
  - destruct (Hg m Hm). auto.
  - destruct (Hf m Hm). auto.
  - destruct (Ht m Hm). auto.
Qed.

Lemma name_step_sound name sf l s m :
  search_sound name sf l s → search_sound name sf (l ++ [m]) (name_step name sf s m).
Proof.
  intros Hs.
  assert (Hs' : search_sound name sf (l ++ [m]) s).
  { eapply search_sound_mono; [|done]. intros x Hx. apply elem_of_app. by left. }
  assert (Hm : m ∈ l ++ [m]).
  { apply elem_of_app. right. left. }
  destruct Hs' as (Hg & Hf & Ht).
  unfold name_step. destruct (SYMBOL_MATCHES_NAME m name) eqn:Hname; [|done].
  unfold search_sound, global_match, file_local_match, trampoline_match.
  destruct (MSYMBOL_TYPE m) eqn:Htype; try destruct (file_symbol_wanted sf m) eqn:Hw;
    try destruct (trampoline_symbol s) eqn:Htr; try done;
    (split_and!; simpl; intros m' Hm'; simplify_eq;
     first [ by apply Hg | by apply Hf | by apply Ht
           | by rewrite ?Hname, ?Htype, ?Hw ]).
Qed.

Lemma scan_sound name sf l :
  ∀ l0 s, search_sound name sf l0 s →
          search_sound name sf (l0 ++ l) (foldl (name_step_guarded name sf) s l).
Proof.
  induction l as [|m l IH]; intros l0 s Hs; simpl.
  { by rewrite app_nil_r. }
  replace (l0 ++ m :: l) with ((l0 ++ [m]) ++ l) by (by rewrite <- app_assoc).
  apply IH.
  unfold name_step_guarded. case_bool_decide.
  - by apply name_step_sound.
  - eapply search_sound_mono; [|done]. intros x Hx. apply elem_of_app. by left.
Qed.

Lemma scan_result_None name sf l :
  ∀ s, name_result (foldl (name_step_guarded name sf) s l) = None →
       name_result s = None ∧
       ∀ x, x ∈ l → global_match name x = false ∧
                    file_local_match name sf x = false ∧
                    trampoline_match name x = false.
Proof.
  induction l as [|m l IH]; intros s Hres; simpl in *.
  { split; [done|]. by intros x ?%elem_of_nil. }
  apply IH in Hres as [Hstep Hl].
  apply name_result_None in Hstep as (Hg & Hf & Ht).
  unfold name_step_guarded in Hg, Hf, Ht.
  case_bool_decide as Hfound; [|done].
  assert (Hm : global_match name m = false ∧ file_local_match name sf m = false ∧
               trampoline_match name m = false).
  { split_and!; apply not_true_is_false; intros Hmatch.
    - by rewrite (name_step_global _ _ _ _ Hmatch) in Hg.
    - by rewrite (name_step_file_local _ _ _ _ Hmatch) in Hf.
    - rewrite (name_step_trampoline _ _ _ _ Hmatch) in Ht. simpl in Ht.
      by destruct (trampoline_symbol s). }
  destruct Hm as (Hmg & Hmf & Hmt). split.
  - apply name_result_None.
    rewrite name_step_file_not_file_local in Hf by done.
    rewrite name_step_trampoline_not_match in Ht by done. done.
  - intros x [->|Hx]%elem_of_cons; [done|by apply Hl].
Qed.

Lemma scan_result_no_match name sf l :
  (∀ x, x ∈ l → global_match name x = false ∧
                file_local_match name sf x = false ∧
                trampoline_match name x = false) →
  name_result (foldl (name_step_guarded name sf) (mk_search None None None) l) = None.
Proof.
  intros Hl. apply name_result_None. split_and!.
  - apply scan_no_global; [done|]. intros x Hx. by apply Hl.
  - rewrite scan_no_file_local; [done|]. intros x Hx. by apply Hl.
  - rewrite scan_no_trampoline; [done|]. intros x Hx. by apply Hl.
Qed.

(** Where the source file plays no part, a symbol of the name asked for
    matches in one of the three ways, whatever its type. *)
Lemma any_match_of_name name sfile m :
  SOFUN_ADDRESS_MAYBE_MISSING = false ∨ sfile = None →
  SYMBOL_NAME m = Some name →
  global_match name m = true ∨ file_local_match name (effective_sfile sfile) m = true ∨
  trampoline_match name m = true.
Proof.
  intros Hs Hname%SYMBOL_MATCHES_NAME_true.
  unfold global_match, file_local_match, trampoline_match, file_symbol_wanted,
    effective_sfile.
  rewrite Hname.
  destruct Hs as [-> | ->]; destruct (MSYMBOL_TYPE m); simpl;
    try destruct SOFUN_ADDRESS_MAYBE_MISSING; auto.
Qed.

Lemma match_has_name name sf m :
  global_match name m = true ∨ file_local_match name sf m = true ∨
  trampoline_match name m = true →
  SYMBOL_NAME m = Some name.
Proof.
  unfold global_match, file_local_match, trampoline_match.
  intros Hm. apply SYMBOL_MATCHES_NAME_true.
  destruct (SYMBOL_MATCHES_NAME m name); [done|]. simpl in Hm.
  by destruct Hm as [?|[?|?]].
Qed.

Lemma lookup_minimal_symbol_Some object_files name sfile objf m :
  lookup_minimal_symbol object_files name sfile objf = Some m →
  m ∈ scan_order objf 0 object_files ∧
  (global_match name m = true ∨
   file_local_match name (effective_sfile sfile) m = true ∨
   trampoline_match name m = true).
Proof.
  rewrite lookup_minimal_symbol_flat.
  set (scan := scan_order objf 0 object_files).
  set (sf := effective_sfile sfile).
  pose proof (scan_sound name sf scan [] (mk_search None None None)) as Hsound.
  rewrite app_nil_l in Hsound.
  destruct Hsound as (Hg & Hf & Ht); [by split_and!|].
  unfold name_result.
  destruct (found_symbol _) as [g|] eqn:Hfg.
  { intros [= <-]. destruct (Hg g eq_refl). auto. }
  destruct (found_file_symbol _) as [f|] eqn:Hff.
  { intros [= <-]. destruct (Hf f eq_refl). auto. }
  intros Hm. destruct (Ht m Hm). auto.
Qed.

Lemma lookup_minimal_symbol_None object_files name sfile objf :
  lookup_minimal_symbol object_files name sfile objf = None ↔
  ∀ x, x ∈ scan_order objf 0 object_files →
       global_match name x = false ∧
       file_local_match name (effective_sfile sfile) x = false ∧
       trampoline_match name x = false.
Proof.
  rewrite lookup_minimal_symbol_flat. split.
  - intros Hres. by apply scan_result_None in Hres as [_ Hl].
  - apply scan_result_no_match.
Qed.

(** X8.  What [lookup_minimal_symbol] returns is one of the symbols that the
    scan visits (the object files selected, each table up to its first
    symbol without a name); it bears the name asked for and matched as a
    global, a file-local or a trampoline symbol.  NULL is returned exactly
    when no symbol visited matches in any of the three ways; where the
    source file plays no part (the target does not track source files, or
    none is given) that is exactly when no symbol visited has the name. *)
Theorem lookup_minimal_symbol_sound (object_files : list objfile)
    (name : string) (sfile : option string) (objf : option nat) :
  let scan := scan_order objf 0 object_files in
  let sf := effective_sfile sfile in
  (∀ m, lookup_minimal_symbol object_files name sfile objf = Some m →
     m ∈ scan ∧ SYMBOL_NAME m = Some name ∧
     (global_match name m = true ∨ file_local_match name sf m = true ∨
      trampoline_match name m = true)) ∧
  (lookup_minimal_symbol object_files name sfile objf = None ↔
   ∀ x, x ∈ scan →
        global_match name x = false ∧ file_local_match name sf x = false ∧
        trampoline_match name x = false) ∧
  (SOFUN_ADDRESS_MAYBE_MISSING = false ∨ sfile = None →
   (lookup_minimal_symbol object_files name sfile objf = None ↔
    ∀ x, x ∈ scan → SYMBOL_NAME x ≠ Some name)).
Proof.
  intros scan sf. split_and!.
  - intros m Hm. apply lookup_minimal_symbol_Some in Hm as [Hin Hmatch].
    split; [done|]. split; [|done]. by eapply match_has_name.
  - apply lookup_minimal_symbol_None.
  - intros Hs. rewrite lookup_minimal_symbol_None. subst scan sf. split.
    + intros Hno x Hx Hname.
      destruct (Hno x Hx) as (Hg & Hf & Ht).
      destruct (any_match_of_name name sfile x Hs Hname) as [?|[?|?]]; congruence.
    + intros Hno x Hx. specialize (Hno x Hx).
      split_and!; apply not_true_is_false; intros Hmatch; apply Hno;
        eapply (match_has_name name (effective_sfile sfile)); eauto.
Qed.

(** *** Lookup by name: the two optional arguments *)

Lemma scan_order_past (i here : nat) object_files :
  i < here → scan_order (Some i) here object_files = [].
Proof.
  revert here. induction object_files as [|o l IH]; intros here Hi; [done|].
  cbn [scan_order].
  rewrite (bool_decide_eq_false_2 (Some i = Some here)) by (intros [=]; lia).
  rewrite (bool_decide_eq_false_2 (Some i = None)) by done.
  simpl. apply IH. lia.
Qed.

Lemma scan_order_one (k here : nat) object_files :
  scan_order (Some (here + k)) here object_files
  = match object_files !! k with
    | Some o => scan_order None 0 [o]
    | None => []
    end.
Proof.
  revert k here. induction object_files as [|o l IH]; intros k here; [done|].
  cbn [scan_order].
  rewrite (bool_decide_eq_false_2 (Some (here + k) = None)) by done.
  destruct k as [|k].
  - rewrite Nat.add_0_r, bool_decide_eq_true_2 by done.
    rewrite scan_order_past by lia.
    cbn [lookup list_lookup scan_order].
    rewrite (bool_decide_eq_true_2 (None = None)) by done. done.
  - rewrite bool_decide_eq_false_2 by (intros [=]; lia).
    replace (here + S k) with (S here + k) by lia. apply (IH k (S here)).
Qed.

(** X9.  Restricting [lookup_minimal_symbol] to one object file of the
    registry gives what the lookup gives on a registry that holds this
    object file alone; an object file that is not in the registry gives
    NULL. *)
Theorem lookup_minimal_symbol_in_objfile (object_files : list objfile)
    (name : string) (sfile : option string) (i : nat) :
  lookup_minimal_symbol object_files name sfile (Some i)
  = match object_files !! i with
    | Some o => lookup_minimal_symbol [o] name sfile None
    | None => None
    end.
Proof.
  rewrite lookup_minimal_symbol_flat.
  pose proof (scan_order_one i 0 object_files) as Hscan. simpl in Hscan.
  rewrite Hscan. destruct (object_files !! i) as [o|]; [|done].
  by rewrite lookup_minimal_symbol_flat.
Qed.

Lemma after_last_slash_None s : char_free "/" s → after_last_slash s = None.
Proof.
  unfold char_free. induction s as [|c s IH]; simpl; [done|].
  intros Hc. apply not_elem_of_cons in Hc as [Hc Hs].
  rewrite IH by done. by rewrite bool_decide_eq_false_2.
Qed.

Lemma after_last_slash_append dir base :
  char_free "/" base →
  after_last_slash (String.append dir (String "/" base)) = Some base.
Proof.
  intros Hb. induction dir as [|c dir IH]; simpl.
  - by rewrite after_last_slash_None.
  - by rewrite IH.
Qed.

(** X10.  The source file argument of [lookup_minimal_symbol]: where the
    target does not track source files it is not looked at; where it does,
    only what follows its last slash counts, so that a path gives what its
    base name gives. *)
Theorem lookup_minimal_symbol_sfile (object_files : list objfile)
    (name : string) (objf : option nat) :
  (SOFUN_ADDRESS_MAYBE_MISSING = false →
   ∀ sfile, lookup_minimal_symbol object_files name sfile objf
            = lookup_minimal_symbol object_files name None objf) ∧
  (SOFUN_ADDRESS_MAYBE_MISSING = true →
   ∀ dir base, char_free "/" base →
     lookup_minimal_symbol object_files name
       (Some (String.append dir (String "/" base))) objf
     = lookup_minimal_symbol object_files name (Some base) objf).
Proof.
  split.
  - intros Hs sfile. rewrite !lookup_minimal_symbol_flat. f_equal.
    assert (Hstep : ∀ sf s m, name_step name sf s m = name_step name None s m).
    { intros sf s m. unfold name_step, file_symbol_wanted. by rewrite Hs. }
    generalize (mk_search None None None).
    induction (scan_order objf 0 object_files) as [|m l IH]; intros s; simpl; [done|].
    rewrite IH. f_equal. unfold name_step_guarded.
    by rewrite (Hstep (effective_sfile sfile)), (Hstep (effective_sfile None)).
  - intros Hs dir base Hbase. rewrite !lookup_minimal_symbol_flat.
    unfold effective_sfile. rewrite Hs. simpl.
    by rewrite after_last_slash_append, after_last_slash_None.
Qed.

(** *** Lookup by address: tables in any order *)

(** The binary search leaves its loop whatever the order of the table: the
    interval shrinks at every turn, and more fuel than the interval is long
    changes nothing. *)
Lemma pc_search_loop_exit msymbol (count : nat) pc fuel :
  ∀ fuel' lo hi,
    (0 ≤ lo ≤ hi)%Z → (hi < Z.of_nat count)%Z →
    (SYMBOL_VALUE_ADDRESS (msym_at msymbol lo) ≤ pc)%N →
    (hi - lo < Z.of_nat fuel)%Z → (hi - lo < Z.of_nat fuel')%Z →
    ∃ lo' hi',
      pc_search_loop fuel msymbol pc (lo, hi) = (lo', hi') ∧
      pc_search_loop fuel' msymbol pc (lo, hi) = (lo', hi') ∧
      (0 ≤ lo' ≤ hi')%Z ∧ (hi' < Z.of_nat count)%Z ∧
      (SYMBOL_VALUE_ADDRESS (msym_at msymbol hi') ≤ pc)%N.
Proof.
  induction fuel as [|fuel IH]; intros fuel' lo hi Hlohi Hhi Hlo Hfuel Hfuel'; [lia|].
  destruct fuel' as [|fuel']; [lia|].
  cbn [pc_search_loop snd].
  case_bool_decide as Hguard.
  2:{ exists lo, hi. split_and!; [done|done|lia|lia|lia|lia]. }
  assert (lo < hi)%Z as Hlt.
  { destruct (decide (lo = hi)) as [->|]; [lia|lia]. }
  unfold pc_search_body.
  assert (lo ≤ (lo + hi) ÷ 2 < hi)%Z as Hnew.
  { clear - Hlohi Hlt. rewrite Z.quot_div_nonneg by lia.
    pose proof (Z.div_mod (lo + hi) 2). pose proof (Z.mod_pos_bound (lo + hi) 2).
    lia. }
  set (new := ((lo + hi) ÷ 2)%Z) in *.
  destruct (bool_decide (pc ≤ SYMBOL_VALUE_ADDRESS (msym_at msymbol new))%N) eqn:Hge;
    cbn [orb].
  - apply IH; [lia | lia | done | lia | lia].
  - apply bool_decide_eq_false in Hge.
    case_bool_decide as Heq.
    + apply IH; [lia | lia | done | lia | lia].
    + apply IH; [lia | lia | lia | lia | lia].
Qed.

Lemma elem_of_take_le {A} (l : list A) (n k : nat) x :
  n ≤ k → x ∈ take n l → x ∈ take k l.
Proof.
  intros Hnk (i & Hi & Hlt)%elem_of_take. apply elem_of_take. exists i.
  split; [done|lia].
Qed.

Lemma last_not_absolute_Some l m :
  last_not_absolute l = Some m → m ∈ l ∧ MSYMBOL_TYPE m ≠ mst_abs.
Proof.
  unfold last_not_absolute.
  intros Hm%last_Some_elem_of%list_elem_of_filter. tauto.
Qed.

Lemma last_not_absolute_None l x :
  last_not_absolute l = None → x ∈ l → MSYMBOL_TYPE x = mst_abs.
Proof.
  unfold last_not_absolute. intros Hnil%last_None Hx.
  destruct (decide (MSYMBOL_TYPE x = mst_abs)) as [|Hne]; [done|].
  assert (x ∈ filter (λ m, MSYMBOL_TYPE m ≠ mst_abs) l) as Hin
    by (by apply list_elem_of_filter).
  rewrite Hnil in Hin. by apply elem_of_nil in Hin.
Qed.

Lemma pc_candidate_entry pc o m :
  well_formed_table o → pc_candidate pc o = Some m →
  m ∈ table_entries o ∧ MSYMBOL_TYPE m ≠ mst_abs.
Proof.
  unfold well_formed_table, pc_candidate, pc_objfile, table_entries, pc_index.
  destruct (msymbols o) as [t|]; [|done].
  set (count := minimal_symbol_count o). intros [Hpos Hlen].
  case_bool_decide as Hfirst; [|done].
  destruct (pc_search_loop_exit t count pc (S count) (S count) 0 (Z.of_nat count - 1))
    as (lo' & hi' & -> & _ & Hlo' & Hhi' & _); [lia|lia|done|lia|lia|].
  pose proof (skip_absolute_spec t count Hlen (S (Z.to_nat hi')) (S count)) as Hskip.
  replace (Z.of_nat (S (Z.to_nat hi')) - 1)%Z with hi' in Hskip by lia.
  cbn zeta in Hskip. specialize (Hskip ltac:(lia) ltac:(lia)).
  set (k := skip_absolute (S count) t hi') in *.
  case_bool_decide as Hk; cbn [andb]; [|done].
  rewrite decide_True in Hskip by done.
  intros [= <-]. symmetry in Hskip.
  apply last_not_absolute_Some in Hskip as [Hin Hne]. split; [|done].
  apply (elem_of_take_le t (S (Z.to_nat hi'))); [lia|done].
Qed.

Lemma searchable_sorted o : searchable o → sorted_by_address (table_entries o).
Proof.
  unfold searchable, table_entries. destruct (msymbols o); [by intros [_ ?]|].
  intros _. constructor.
Qed.

Lemma searchable_well_formed o : searchable o → well_formed_table o.
Proof.
  unfold searchable, well_formed_table. destruct (msymbols o); [by intros [? _]|done].
Qed.

Lemma pc_candidate_at_most pc o m :
  searchable o → pc_candidate pc o = Some m → (SYMBOL_VALUE_ADDRESS m ≤ pc)%N.
Proof.
  intros Hs Hm. pose proof (pc_candidate_spec pc o Hs) as Hspec.
  pose proof (searchable_sorted o Hs) as Hsorted.
  destruct (lowest_address o) as [low|]; [|congruence].
  destruct Hspec as [Hbelow Hfrom].
  destruct (decide (pc < low)%N) as [Hlt|Hge]; [rewrite Hbelow in Hm; done|].
  destruct Hfrom as (h & Hh & (mh & Hmh & Hle & _) & Hcand); [lia|].
  rewrite Hm in Hcand. symmetry in Hcand.
  apply last_not_absolute_Some in Hcand as [(j & Hj & Hjh)%elem_of_take _].
  pose proof (sorted_by_address_lookup _ j h m mh Hsorted Hj Hmh ltac:(lia)) as Hjle.
  unfold address_le in Hjle. lia.
Qed.

Lemma lookup_minimal_symbol_by_pc_candidate object_files pc m :
  lookup_minimal_symbol_by_pc object_files pc = Some m →
  ∃ o, o ∈ object_files ∧ pc_candidate pc o = Some m.
Proof.
  rewrite lookup_minimal_symbol_by_pc_fold.
  pose proof (better_symbol_fold (pc_candidate pc <$> object_files)) as Hfold.
  intros Hm. rewrite Hm in Hfold. destruct Hfold as (i & Hi & _).
  rewrite list_lookup_fmap in Hi.
  destruct (object_files !! i) as [o|] eqn:Ho; [|done].
  injection Hi as Hi. exists o. split; [by eapply list_elem_of_lookup_2|done].
Qed.

(** X11.  [lookup_minimal_symbol_by_pc] on tables in any order of address
    (each with at least one symbol and room for its count): the binary
    search leaves its loop, with [lo] and [hi] inside the table and the
    address at [hi] not above [pc], and running it longer changes nothing;
    a symbol returned is an entry of one of the tables and is never of type
    [mst_abs].  Where the tables are in ascending order of address, its
    address is not above [pc]. *)
Theorem lookup_minimal_symbol_by_pc_safe (object_files : list objfile)
    (pc : CORE_ADDR) :
  Forall well_formed_table object_files →
  (∀ o t, o ∈ object_files → msymbols o = Some t →
     (SYMBOL_VALUE_ADDRESS (msym_at t 0) ≤ pc)%N →
     let count := minimal_symbol_count o in
     ∃ lo hi,
       (0 ≤ lo ≤ hi)%Z ∧ (hi < Z.of_nat count)%Z ∧
       (SYMBOL_VALUE_ADDRESS (msym_at t hi) ≤ pc)%N ∧
       ∀ fuel, count ≤ fuel →
         pc_search_loop fuel t pc (0%Z, (Z.of_nat count - 1)%Z) = (lo, hi)) ∧
  (∀ m, lookup_minimal_symbol_by_pc object_files pc = Some m →
     (∃ o, o ∈ object_files ∧ m ∈ table_entries o) ∧
     MSYMBOL_TYPE m ≠ mst_abs) ∧
  (Forall searchable object_files →
   ∀ m, lookup_minimal_symbol_by_pc object_files pc = Some m →
        (SYMBOL_VALUE_ADDRESS m ≤ pc)%N).
Proof.
  intros Hwf. rewrite Forall_forall in Hwf. split_and!.
  - intros o t Ho Ht Hfirst count.
    specialize (Hwf o Ho). unfold well_formed_table in Hwf. rewrite Ht in Hwf.
    fold count in Hwf.
    destruct (pc_search_loop_exit t count pc count count 0 (Z.of_nat count - 1))
      as (lo & hi & Hrun & _ & Hlo & Hhi & Hpc); [lia|lia|done|lia|lia|].
    exists lo, hi. split_and!; [lia|lia|done|done|].
    intros fuel Hfuel.
    destruct (pc_search_loop_exit t count pc count fuel 0 (Z.of_nat count - 1))
      as (lo2 & hi2 & Hrun2 & Hrun2' & _); [lia|lia|done|lia|lia|].
    congruence.
  - intros m (o & Ho & Hm)%lookup_minimal_symbol_by_pc_candidate.
    apply pc_candidate_entry in Hm as [Hin Hne]; [|by apply Hwf].
    split; [by exists o|done].
  - intros Hs m (o & Ho & Hm)%lookup_minimal_symbol_by_pc_candidate.
    rewrite Forall_forall in Hs. by apply (pc_candidate_at_most pc o); [apply Hs|].
Qed.

(** *** Lookup by address: tables without two symbols of one address *)

Lemma sorted_by_address_filter (P : minimal_symbol → Prop)
    `{∀ x, Decision (P x)} l :
  sorted_by_address l → sorted_by_address (filter P l).
Proof.
  unfold sorted_by_address. induction 1 as [|x l _ IH Hx]; [constructor|].
  rewrite filter_cons. case_decide; [|done]. constructor; [done|].
  rewrite Forall_forall in *. intros y [_ Hy]%list_elem_of_filter. by apply Hx.
Qed.

Lemma sorted_by_address_take n l :
  sorted_by_address l → sorted_by_address (take n l).
Proof.
  unfold sorted_by_address. rewrite <- (take_drop n l) at 1.
  apply StronglySorted_app_1_l.
Qed.

Lemma sorted_by_address_last l m x :
  sorted_by_address l → last l = Some m → x ∈ l → address_le x m.
Proof.
  unfold sorted_by_address. induction 1 as [|y l _ IH Hy]; [done|].
  rewrite last_cons. destruct (last l) as [z|] eqn:Hlast.
  - intros [= ->] [->|Hx]%elem_of_cons; [|by apply IH].
    rewrite Forall_forall in Hy. by apply Hy, last_Some_elem_of.
  - apply last_None in Hlast as ->.
    intros [= ->] [->|Hx]%elem_of_cons; [|by apply elem_of_nil in Hx].
    unfold address_le. lia.
Qed.

(** What one object file offers when no two of its symbols have one
    address: the symbol of greatest address at or below [pc] among those
    that are not absolute. *)
Lemma pc_candidate_greatest pc o :
  searchable o → distinct_addresses o →
  match pc_candidate pc o with
  | Some m =>
      m ∈ table_entries o ∧ MSYMBOL_TYPE m ≠ mst_abs ∧
      (SYMBOL_VALUE_ADDRESS m ≤ pc)%N ∧
      ∀ x, x ∈ table_entries o → MSYMBOL_TYPE x ≠ mst_abs →
           (SYMBOL_VALUE_ADDRESS x ≤ pc)%N →
           (SYMBOL_VALUE_ADDRESS x ≤ SYMBOL_VALUE_ADDRESS m)%N
  | None =>
      ∀ x, x ∈ table_entries o → (SYMBOL_VALUE_ADDRESS x ≤ pc)%N →
           MSYMBOL_TYPE x = mst_abs
  end.
Proof.
  intros Hs Hd. pose proof (pc_candidate_spec pc o Hs) as Hspec.
  pose proof (searchable_sorted o Hs) as Hsorted.
  unfold distinct_addresses in Hd. unfold lowest_address in Hspec.
  set (entries := table_entries o) in *.
  destruct (head entries) as [m0|] eqn:Hhead; simpl in Hspec.
  2:{ rewrite Hspec. apply head_None in Hhead. rewrite Hhead.
      by intros x ?%elem_of_nil. }
  destruct Hspec as [Hbelow Hfrom].
  rewrite head_lookup in Hhead.
  destruct (decide (pc < SYMBOL_VALUE_ADDRESS m0)%N) as [Hlt|Hge].
  { rewrite Hbelow by done. intros x (i & Hi)%list_elem_of_lookup Hx.
    pose proof (sorted_by_address_lookup _ 0 i m0 x Hsorted Hhead Hi ltac:(lia)) as Hle.
    unfold address_le in Hle. lia. }
  destruct Hfrom as (h & Hh & (mh & Hmh & Hle & Hmax) & Hcand); [lia|].
  assert (Hreach : ∀ x, x ∈ entries → (SYMBOL_VALUE_ADDRESS x ≤ pc)%N →
                        x ∈ take (S h) entries).
  { intros x (i & Hi)%list_elem_of_lookup Hx. apply elem_of_take. exists i.
    split; [done|]. destruct (decide (i < S h)) as [|Hbig]; [done|]. exfalso.
    pose proof (sorted_by_address_lookup _ h i mh x Hsorted Hmh Hi ltac:(lia)) as Hup.
    pose proof (Hmax x (list_elem_of_lookup_2 _ _ _ Hi) Hx) as Hdown.
    unfold address_le in Hup.
    assert (SYMBOL_VALUE_ADDRESS x = SYMBOL_VALUE_ADDRESS mh) as Heq by lia.
    assert (i = h); [|lia].
    apply (NoDup_lookup _ i h (SYMBOL_VALUE_ADDRESS mh) Hd);
      rewrite list_lookup_fmap; [by rewrite Hi, <- Heq|by rewrite Hmh]. }
  rewrite Hcand.
  destruct (last_not_absolute (take (S h) entries)) as [m|] eqn:Hlast.
  - pose proof (last_not_absolute_Some _ _ Hlast) as [Hin Hne].
    apply elem_of_take in Hin as (j & Hj & Hjh).
    pose proof (sorted_by_address_lookup _ j h m mh Hsorted Hj Hmh ltac:(lia)) as Hjle.
    unfold address_le in Hjle.
    split_and!; [by eapply list_elem_of_lookup_2|done|lia|].
    intros x Hx Hxne Hxpc.
    apply (sorted_by_address_last
             (filter (λ m, MSYMBOL_TYPE m ≠ mst_abs) (take (S h) entries)));
      [by apply sorted_by_address_filter, sorted_by_address_take|done|].
    apply list_elem_of_filter. split; [done|by apply Hreach].
  - intros x Hx Hxpc. apply (last_not_absolute_None _ x Hlast). by apply Hreach.
Qed.

(** Over such tables the symbol returned is an offer of one of the object
    files and the greatest that is not absolute. *)
Lemma lookup_minimal_symbol_by_pc_best (object_files : list objfile)
    (pc : CORE_ADDR) :
  (∀ o, o ∈ object_files → searchable o) →
  (∀ o, o ∈ object_files → distinct_addresses o) →
  match lookup_minimal_symbol_by_pc object_files pc with
  | Some m =>
      (∃ o, o ∈ object_files ∧ pc_candidate pc o = Some m ∧ m ∈ table_entries o) ∧
      MSYMBOL_TYPE m ≠ mst_abs ∧
      (SYMBOL_VALUE_ADDRESS m ≤ pc)%N ∧
      ∀ o x, o ∈ object_files → x ∈ table_entries o →
             MSYMBOL_TYPE x ≠ mst_abs → (SYMBOL_VALUE_ADDRESS x ≤ pc)%N →
             (SYMBOL_VALUE_ADDRESS x ≤ SYMBOL_VALUE_ADDRESS m)%N
  | None =>
      ∀ o x, o ∈ object_files → x ∈ table_entries o →
             (SYMBOL_VALUE_ADDRESS x ≤ pc)%N → MSYMBOL_TYPE x = mst_abs
  end.
Proof.
  intros Hs Hd.
  rewrite lookup_minimal_symbol_by_pc_fold.
  pose proof (better_symbol_fold (pc_candidate pc <$> object_files)) as Hfold.
  destruct (foldl better_symbol None (pc_candidate pc <$> object_files)) as [best|].
  - destruct Hfold as (i & Hi & Hmax).
    rewrite list_lookup_fmap in Hi.
    destruct (object_files !! i) as [oi|] eqn:Hoi; [|done].
    injection Hi as Hi.
    pose proof (list_elem_of_lookup_2 _ _ _ Hoi) as Hin.
    pose proof (pc_candidate_greatest pc oi (Hs oi Hin) (Hd oi Hin)) as Hbest.
    rewrite Hi in Hbest. destruct Hbest as (Hentry & Hne & Hle & _).
    split_and!; [by exists oi|done|done|].
    intros o x Ho Hx Hxne Hxpc.
    pose proof (pc_candidate_greatest pc o (Hs o Ho) (Hd o Ho)) as Hcand.
    destruct (pc_candidate pc o) as [c|] eqn:Hc.
    + destruct Hcand as (_ & _ & _ & Hgreat).
      apply list_elem_of_lookup in Ho as [j Hj].
      destruct (Hmax j c) as [Hcle _]; [by rewrite list_lookup_fmap, Hj, <- Hc|].
      specialize (Hgreat x Hx Hxne Hxpc). lia.
    + by specialize (Hcand x Hx Hxpc).
  - intros o x Ho Hx Hxpc.
    pose proof (pc_candidate_greatest pc o (Hs o Ho) (Hd o Ho)) as Hcand.
    rewrite (Hfold (pc_candidate pc o)) in Hcand by (by apply list_elem_of_fmap_2).
    by apply Hcand.
Qed.

(** X12.  Over tables in ascending order of address in which no two symbols
    have one address, [lookup_minimal_symbol_by_pc] returns the symbol of
    greatest address at or below [pc] among the symbols of all the tables
    that are not of type [mst_abs], and NULL exactly when every symbol at or
    below [pc] is of that type. *)
Theorem lookup_minimal_symbol_by_pc_greatest (object_files : list objfile)
    (pc : CORE_ADDR) :
  Forall searchable object_files →
  Forall distinct_addresses object_files →
  match lookup_minimal_symbol_by_pc object_files pc with
  | Some m =>
      (∃ o, o ∈ object_files ∧ m ∈ table_entries o) ∧
      MSYMBOL_TYPE m ≠ mst_abs ∧
      (SYMBOL_VALUE_ADDRESS m ≤ pc)%N ∧
      ∀ o x, o ∈ object_files → x ∈ table_entries o →
             MSYMBOL_TYPE x ≠ mst_abs → (SYMBOL_VALUE_ADDRESS x ≤ pc)%N →
             (SYMBOL_VALUE_ADDRESS x ≤ SYMBOL_VALUE_ADDRESS m)%N
  | None =>
      ∀ o x, o ∈ object_files → x ∈ table_entries o →
             (SYMBOL_VALUE_ADDRESS x ≤ pc)%N → MSYMBOL_TYPE x = mst_abs
  end.
Proof.
  intros Hs Hd. rewrite Forall_forall in Hs, Hd.
  pose proof (lookup_minimal_symbol_by_pc_best object_files pc Hs Hd) as Hbest.
  destruct (lookup_minimal_symbol_by_pc object_files pc) as [m|]; [|exact Hbest].
  destruct Hbest as ((o & Ho & _ & Hm) & Hne & Hle & Hgreat).
  split_and!; [by exists o|done|done|done].
Qed.

(** *** Lookup by address: no two symbols of one address in the registry *)

Lemma distinct_in_registry_objfile object_files o :
  distinct_in_registry object_files → o ∈ object_files → distinct_addresses o.
Proof.
  unfold distinct_in_registry, distinct_addresses.
  intros Hd (l1 & l2 & ->)%list_elem_of_split.
  rewrite bind_app, bind_cons, !fmap_app in Hd.
  apply NoDup_app in Hd as (_ & _ & Hd). by apply NoDup_app in Hd as (Hd & _).
Qed.

Lemma distinct_in_registry_eq object_files o o' m m' :
  distinct_in_registry object_files →
  o ∈ object_files → m ∈ table_entries o →
  o' ∈ object_files → m' ∈ table_entries o' →
  SYMBOL_VALUE_ADDRESS m = SYMBOL_VALUE_ADDRESS m' → m = m'.
Proof.
  unfold distinct_in_registry. intros Hd Ho Hm Ho' Hm' Heq.
  assert (Hin : m ∈ object_files ≫= table_entries)
    by (apply list_elem_of_bind; by exists o).
  assert (Hin' : m' ∈ object_files ≫= table_entries)
    by (apply list_elem_of_bind; by exists o').
  apply list_elem_of_lookup in Hin as [i Hi].
  apply list_elem_of_lookup in Hin' as [j Hj].
  assert (i = j) as ->.
  { apply (NoDup_lookup _ i j (SYMBOL_VALUE_ADDRESS m) Hd);
      rewrite list_lookup_fmap; [by rewrite Hi|by rewrite Hj, Heq]. }
  congruence.
Qed.

(** X17.  When the tables are in ascending order of address and no two
    symbols of the registry have one address, the order of the object files
    in the registry plays no part in [lookup_minimal_symbol_by_pc]. *)
Theorem lookup_minimal_symbol_by_pc_registry_order
    (object_files object_files' : list objfile) (pc : CORE_ADDR) :
  object_files ≡ₚ object_files' →
  Forall searchable object_files →
  distinct_in_registry object_files →
  lookup_minimal_symbol_by_pc object_files pc
  = lookup_minimal_symbol_by_pc object_files' pc.
Proof.
  intros Hperm Hs Hd. rewrite Forall_forall in Hs.
  assert (Hmem : ∀ o, o ∈ object_files' → o ∈ object_files).
  { intros o Ho. by rewrite Hperm. }
  assert (Hmem' : ∀ o, o ∈ object_files → o ∈ object_files').
  { intros o Ho. by rewrite <- Hperm. }
  pose proof (lookup_minimal_symbol_by_pc_best object_files pc Hs
                (λ o, distinct_in_registry_objfile _ o Hd)) as Hl.
  pose proof (lookup_minimal_symbol_by_pc_best object_files' pc
                (λ o Ho, Hs o (Hmem o Ho))
                (λ o Ho, distinct_in_registry_objfile _ o Hd (Hmem o Ho))) as Hr.
  destruct (lookup_minimal_symbol_by_pc object_files pc) as [m|],
           (lookup_minimal_symbol_by_pc object_files' pc) as [m'|]; [| | |done].
  - destruct Hl as ((o & Ho & _ & Hm) & Hne & Hle & Hgreat).
    destruct Hr as ((o' & Ho' & _ & Hm') & Hne' & Hle' & Hgreat').
    f_equal. apply (distinct_in_registry_eq object_files o o'); auto.
    pose proof (Hgreat o' m' (Hmem o' Ho') Hm' Hne' Hle').
    pose proof (Hgreat' o m (Hmem' o Ho) Hm Hne Hle). lia.
  - destruct Hl as ((o & Ho & _ & Hm) & Hne & Hle & _).
    by specialize (Hr o m (Hmem' o Ho) Hm Hle).
  - destruct Hr as ((o' & Ho' & _ & Hm') & Hne' & Hle' & _).
    by specialize (Hl o' m' (Hmem o' Ho') Hm' Hle').
Qed.

(** X18.  When the tables are in ascending order of address and no two
    symbols of the registry have one address, the symbol that
    [lookup_minimal_symbol_by_pc] returns for [pc] is returned for every
    address from its own up to [pc], its own included; and for an address
    above [pc] a symbol is returned whose address is not below. *)
Theorem lookup_minimal_symbol_by_pc_range (object_files : list objfile)
    (pc : CORE_ADDR) (m : minimal_symbol) :
  Forall searchable object_files →
  distinct_in_registry object_files →
  lookup_minimal_symbol_by_pc object_files pc = Some m →
  lookup_minimal_symbol_by_pc object_files (SYMBOL_VALUE_ADDRESS m) = Some m ∧
  (∀ pc', (SYMBOL_VALUE_ADDRESS m ≤ pc')%N → (pc' ≤ pc)%N →
          lookup_minimal_symbol_by_pc object_files pc' = Some m) ∧
  (∀ pc', (pc ≤ pc')%N →
          ∃ m', lookup_minimal_symbol_by_pc object_files pc' = Some m' ∧
                (SYMBOL_VALUE_ADDRESS m ≤ SYMBOL_VALUE_ADDRESS m')%N).
Proof.
  intros Hs Hd Hm. rewrite Forall_forall in Hs.
  pose proof (λ pc', lookup_minimal_symbol_by_pc_best object_files pc' Hs
                (λ o, distinct_in_registry_objfile _ o Hd)) as Hbest.
  pose proof (Hbest pc) as Hpc. rewrite Hm in Hpc.
  destruct Hpc as ((o & Ho & _ & Hin) & Hne & Hle & Hgreat).
  assert (Hrange : ∀ pc', (SYMBOL_VALUE_ADDRESS m ≤ pc')%N → (pc' ≤ pc)%N →
            lookup_minimal_symbol_by_pc object_files pc' = Some m).
  { intros pc' Hlow Hhigh. specialize (Hbest pc').
    destruct (lookup_minimal_symbol_by_pc object_files pc') as [m'|].
    - destruct Hbest as ((o' & Ho' & _ & Hin') & Hne' & Hle' & Hgreat').
      f_equal. apply (distinct_in_registry_eq object_files o' o); auto.
      pose proof (Hgreat o' m' Ho' Hin' Hne' ltac:(lia)).
      pose proof (Hgreat' o m Ho Hin Hne Hlow). lia.
    - by specialize (Hbest o m Ho Hin Hlow). }
  split_and!; [apply Hrange; lia|done|].
  intros pc' Hge. specialize (Hbest pc').
  destruct (lookup_minimal_symbol_by_pc object_files pc') as [m'|].
  - destruct Hbest as (_ & _ & _ & Hgreat').
    exists m'. split; [done|]. apply (Hgreat' o m Ho Hin Hne). lia.
  - exfalso. apply Hne, (Hbest o m Ho Hin). lia.
Qed.

(** *** Recording, installing, then looking up by name *)

Lemma copy_in_name leading_char m s :
  SYMBOL_NAME m = Some s →
  SYMBOL_NAME (copy_in leading_char m) = Some (skip_leading_char leading_char s).
Proof.
  destruct m; simpl; intros ->. unfold copy_in, skip_leading_char; simpl.
  by case_bool_decide.
Qed.

Lemma copy_in_named leading_char m : named m → named (copy_in leading_char m).
Proof.
  unfold named. destruct (SYMBOL_NAME m) as [s|] eqn:Hs; [|done]. intros _.
  by rewrite (copy_in_name _ _ s).
Qed.

Lemma scan_order_single o t :
  msymbols o = Some t → scan_order None 0 [o] = named_prefix t.
Proof.
  intros Ht. cbn [scan_order]. rewrite Ht.
  rewrite (bool_decide_eq_true_2 (None = None)) by done. simpl.
  by rewrite app_nil_r.
Qed.

(** X13.  A symbol that was recorded and installed is found again by name:
    after a load into an object file (whose old symbols, if any, have
    names), [lookup_minimal_symbol] asked for the name of an accepted
    request, without the leading symbol character if it begins with it,
    returns a symbol of that name, where the source file plays no part (the
    target does not track source files, or none is given). *)
Theorem lookup_minimal_symbol_after_install (rs : list msym_request)
    (obj : objfile) (r : msym_request) (sfile : option string) :
  Forall named (table_entries obj) →
  r ∈ rs →
  is_compiler_marker (req_name r) (req_ms_type r) obj = false →
  req_name r ≠ EmptyString →
  SOFUN_ADDRESS_MAYBE_MISSING = false ∨ sfile = None →
  let name := skip_leading_char (get_symbol_leading_char (obfd obj)) (req_name r) in
  ∃ m,
    lookup_minimal_symbol
      [fst (install_minimal_symbols obj
              (record_all rs obj init_minimal_symbol_collection))]
      name sfile None = Some m ∧
    SYMBOL_NAME m = Some name.
Proof.
  intros Hold Hr Hmarker _ Hsfile name.
  set (st := record_all rs obj init_minimal_symbol_collection).
  set (lc := get_symbol_leading_char (obfd obj)) in *.
  destruct (gather_after_record_all rs obj) as [(Hrec & Hcount & _) Hgather].
  fold st lc in Hrec, Hcount, Hgather.
  assert (Hacc : fill_slot r ∈ concat (msym_bunch st)).
  { rewrite <- concat_reverse_Permutation, Hrec. apply list_elem_of_fmap_2.
    unfold accepted. by apply list_elem_of_filter. }
  assert (Hc : 0 < msym_count st).
  { rewrite Hcount, <- Hrec, concat_reverse_Permutation.
    apply list_elem_of_lookup in Hacc as [i Hi]. apply lookup_lt_Some in Hi. lia. }
  assert (Hnamed : Forall named (gather_minimal_symbols obj st)).
  { rewrite Hgather. apply Forall_app. split; [done|].
    apply Forall_forall. intros y (z & -> & Hz)%list_elem_of_fmap.
    apply copy_in_named.
    rewrite <- concat_reverse_Permutation, Hrec in Hz.
    by apply list_elem_of_fmap in Hz as (r' & -> & _). }
  assert (Hin : copy_in lc (fill_slot r) ∈ gather_minimal_symbols obj st).
  { rewrite Hgather. apply elem_of_app. right. by apply list_elem_of_fmap_2. }
  rewrite <- (qsort_Permutation compare_minimal_symbols) in Hin.
  apply merge_adjacent_keeps in Hin as (y & Hy & _ & Hyname).
  rewrite (copy_in_name _ _ (req_name r)) in Hyname by done. fold name in Hyname.
  set (entry := SYMBOL_INIT_DEMANGLED_NAME y).
  assert (Hentry : SYMBOL_NAME entry = Some name).
  { subst entry. by rewrite SYMBOL_INIT_DEMANGLED_NAME_name. }
  set (o' := fst (install_minimal_symbols obj st)).
  assert (Hscan : entry ∈ scan_order None 0 [o']).
  { subst o'. rewrite install_minimal_symbols_publishes by done.
    erewrite scan_order_single by done.
    rewrite named_prefix_stop by done.
    rewrite named_prefix_all by (by apply installed_entries_named).
    by apply list_elem_of_fmap_2. }
  destruct (lookup_minimal_symbol [o'] name sfile None) as [m|] eqn:Hm.
  - exists m. split; [done|].
    apply lookup_minimal_symbol_Some in Hm as [_ Hmatch].
    by eapply match_has_name.
  - exfalso.
    pose proof (proj1 (lookup_minimal_symbol_None [o'] name sfile None) Hm entry Hscan)
      as (Hg & Hf & Ht).
    destruct (any_match_of_name name sfile entry Hsfile Hentry) as [?|[?|?]];
      congruence.
Qed.

(** *** [find_stab_function_addr] *)

Lemma before_colon_None s : char_free ":" s → before_colon s = None.
Proof.
  unfold char_free. induction s as [|c s IH]; simpl; [done|].
  intros Hc. apply not_elem_of_cons in Hc as [Hc Hs].
  rewrite bool_decide_eq_false_2 by done. by rewrite IH.
Qed.

Lemma before_colon_append name rest :
  char_free ":" name →
  before_colon (String.append name (String ":" rest)) = Some name.
Proof.
  unfold char_free. induction name as [|c name IH]; simpl; [done|].
  intros Hc. apply not_elem_of_cons in Hc as [Hc Hs].
  rewrite bool_decide_eq_false_2 by done. by rewrite IH.
Qed.

(** X14.  [find_stab_function_addr] looks up what stands before the first
    colon of [namestring], so that what follows the colon plays no part;
    without a colon it looks up the empty name, and then returns 0 unless
    some symbol visited has the empty name.  An address other than 0 is the
    address of a symbol visited that has the name looked up. *)
Theorem find_stab_function_addr_name (object_files : list objfile)
    (pst_filename : option string) (objf : option nat) :
  (∀ name rest, char_free ":" name →
     find_stab_function_addr object_files (String.append name (String ":" rest))
       pst_filename objf
     = match lookup_minimal_symbol object_files name pst_filename objf with
       | None => 0%N
       | Some msym => SYMBOL_VALUE_ADDRESS msym
       end) ∧
  (∀ namestring, char_free ":" namestring →
     find_stab_function_addr object_files namestring pst_filename objf
     = match lookup_minimal_symbol object_files EmptyString pst_filename objf with
       | None => 0%N
       | Some msym => SYMBOL_VALUE_ADDRESS msym
       end ∧
     ((∀ x, x ∈ scan_order objf 0 object_files → SYMBOL_NAME x ≠ Some EmptyString) →
      find_stab_function_addr object_files namestring pst_filename objf = 0%N)) ∧
  (∀ namestring,
     find_stab_function_addr object_files namestring pst_filename objf ≠ 0%N →
     ∃ m, m ∈ scan_order objf 0 object_files ∧
          SYMBOL_NAME m = Some (default EmptyString (before_colon namestring)) ∧
          SYMBOL_VALUE_ADDRESS m
          = find_stab_function_addr object_files namestring pst_filename objf).
Proof.
  unfold find_stab_function_addr. split_and!.
  - intros name rest Hname. by rewrite before_colon_append.
  - intros namestring Hfree. rewrite before_colon_None by done. simpl.
    split; [done|]. intros Hno.
    rewrite (proj2 (lookup_minimal_symbol_None object_files EmptyString
                      pst_filename objf)); [done|].
    intros x Hx. specialize (Hno x Hx).
    split_and!; apply not_true_is_false; intros Hmatch; apply Hno;
      eapply (match_has_name _ (effective_sfile pst_filename)); eauto.
  - intros namestring. cbn zeta.
    destruct (lookup_minimal_symbol _ _ _ _) as [m|] eqn:Hm; [|done].
    intros _. exists m.
    apply lookup_minimal_symbol_Some in Hm as [Hin Hmatch].
    split_and!; [done| |done]. by eapply match_has_name.
Qed.

(** *** [msymbols_sort] *)

Lemma qsort_nil cmp : qsort cmp [] = [].
Proof. apply Permutation_nil_r, qsort_Permutation. Qed.

Lemma table_entries_msymbols_sort obj :
  table_entries (msymbols_sort obj)
  = qsort compare_minimal_symbols (table_entries obj).
Proof.
  unfold table_entries, msymbols_sort. cbn [msymbols minimal_symbol_count].
  destruct (msymbols obj) as [t|]; simpl.
  2:{ by rewrite qsort_nil. }
  set (count := minimal_symbol_count obj).
  pose proof (Permutation_length (qsort_Permutation compare_minimal_symbols
                                    (take count t))) as Hlen.
  rewrite length_take in Hlen.
  destruct (decide (count ≤ length t)) as [Hle|Hgt].
  - apply take_app_length'. lia.
  - rewrite drop_ge, app_nil_r by lia. apply take_ge. lia.
Qed.

(** X15.  [msymbols_sort] leaves the counted entries of the table in
    ascending order of address; they are the entries that were there, each
    as often as before; the count, the BFD and what follows the counted
    entries in the array (the terminating null symbol) are as they were, and
    an object file without a table stays without.  A table of at least one
    symbol that has room for its count is, once sorted, one that
    [lookup_minimal_symbol_by_pc] can search. *)
Theorem msymbols_sort_sorted (obj : objfile) :
  table_entries (msymbols_sort obj) ≡ₚ table_entries obj ∧
  sorted_by_address (table_entries (msymbols_sort obj)) ∧
  minimal_symbol_count (msymbols_sort obj) = minimal_symbol_count obj ∧
  obfd (msymbols_sort obj) = obfd obj ∧
  match msymbols obj with
  | Some t =>
      ∃ t', msymbols (msymbols_sort obj) = Some t' ∧
            length t' = length t ∧
            drop (minimal_symbol_count obj) t' = drop (minimal_symbol_count obj) t
  | None => msymbols (msymbols_sort obj) = None
  end ∧
  (well_formed_table obj → searchable (msymbols_sort obj)).
Proof.
  split_and!.
  - rewrite table_entries_msymbols_sort. apply qsort_Permutation.
  - rewrite table_entries_msymbols_sort. apply qsort_sorted_by_address.
  - done.
  - done.
  - unfold msymbols_sort. cbn [msymbols]. destruct (msymbols obj) as [t|]; [|done].
    set (count := minimal_symbol_count obj).
    pose proof (Permutation_length (qsort_Permutation compare_minimal_symbols
                                      (take count t))) as Hlen.
    eexists. split; [done|]. split.
    + rewrite length_app, Hlen, <- length_app. by rewrite take_drop.
    + rewrite length_take in Hlen.
      destruct (decide (count ≤ length t)) as [Hle|Hgt].
      * apply drop_app_length'. lia.
      * rewrite !drop_ge; [done|lia|]. rewrite length_app, length_drop. lia.
  - intros Hwf.
    pose proof (table_entries_msymbols_sort obj) as Hentries.
    pose proof (qsort_sorted_by_address (table_entries obj)) as Hsorted.
    rewrite <- Hentries in Hsorted.
    unfold well_formed_table in Hwf.
    unfold searchable, table_entries, msymbols_sort in *.
    cbn [msymbols minimal_symbol_count] in *.
    destruct (msymbols obj) as [t|]; [|done]. simpl in *.
    split; [|done]. split; [lia|].
    rewrite length_app, length_drop.
    rewrite (Permutation_length (qsort_Permutation compare_minimal_symbols _)).
    rewrite length_take. lia.
Qed.

(** *** [discard_minimal_symbols] *)

Lemma free_bunches_nil bunch : free_bunches bunch = [].
Proof. induction bunch; [done|]. done. Qed.

(** X16.  [discard_minimal_symbols] frees the whole chain of bunches,
    however long, and touches neither [msym_count] nor [msym_bunch_index].
    An installation that follows it therefore copies no buffered symbol:
    the array gathered holds the old entries of the object file alone, the
    table holds symbols of their addresses and names only, and the
    collection variables come out as they went in.  With a positive
    [msym_count] and no old entries a table is published that holds the
    null symbol alone, with a count of 0. *)
Theorem discard_minimal_symbols_then_install (obj : objfile) (st : collection) :
  let st' := discard_minimal_symbols st in
  let o' := fst (install_minimal_symbols obj st') in
  msym_bunch st' = [] ∧
  msym_count st' = msym_count st ∧
  msym_bunch_index st' = msym_bunch_index st ∧
  gather_minimal_symbols obj st' = table_entries obj ∧
  (∀ y, y ∈ table_entries o' → ∃ x, x ∈ table_entries obj ∧ same_symbol y x) ∧
  snd (install_minimal_symbols obj st') = st' ∧
  (0 < msym_count st → table_entries obj = [] →
   msymbols o' = Some [null_symbol] ∧ minimal_symbol_count o' = 0 ∧
   ¬ well_formed_table o').
Proof.
  intros st' o'.
  assert (Hb : msym_bunch st' = []) by apply free_bunches_nil.
  assert (Hg : gather_minimal_symbols obj st' = table_entries obj).
  { unfold gather_minimal_symbols, table_entries. rewrite Hb. simpl.
    by rewrite app_nil_r. }
  split_and!; [done..| | |].
  - intros y Hy. subst o'.
    destruct (decide (0 < msym_count st')) as [Hc|Hc].
    + rewrite install_table_entries in Hy by done.
      apply list_elem_of_fmap in Hy as (y0 & -> & Hy0).
      unfold installed_entries in Hy0. rewrite Hg in Hy0.
      apply merge_adjacent_elem in Hy0 as (x & Hx & Ha & Hn).
      rewrite (qsort_Permutation compare_minimal_symbols) in Hx.
      exists x. split; [done|]. unfold same_symbol.
      by rewrite SYMBOL_INIT_DEMANGLED_NAME_address, SYMBOL_INIT_DEMANGLED_NAME_name.
    + unfold install_minimal_symbols in Hy. rewrite decide_False in Hy by done.
      exists y. by split.
  - unfold install_minimal_symbols.
    destruct (decide (0 < msym_count st')); [|done].
    destruct (compact_minimal_symbols _ _). simpl.
    unfold st', discard_minimal_symbols. by rewrite free_bunches_nil.
  - intros Hc Hempty. subst o'.
    rewrite install_minimal_symbols_publishes by done.
    unfold installed_entries, stale_slot. rewrite Hg, Hempty.
    rewrite qsort_nil. simpl. split_and!; [done|done|].
    unfold well_formed_table. simpl. lia.
Qed.

End Theorems.

Lemma program_library_searchable : Forall searchable [program; library].
Proof.
  repeat constructor; simpl; try lia;
    rewrite ?Forall_cons, ?Forall_nil; unfold address_le; simpl; lia.
Defined.

(** ** The concrete tables evaluated (section 8 of the spec) *)

Example duplicate_merge_unknown_then_text :
  compacted [foo_unknown; foo_text] 2 = [foo_text].
Proof. reflexivity. Qed.

Example duplicate_merge_text_then_unknown :
  compacted [foo_text; foo_unknown] 2 = [foo_text].
Proof. reflexivity. Qed.

Example absolute_skip :
  lookup_minimal_symbol_by_pc [program] 250%N = Some a_text.
Proof. reflexivity. Qed.

Example address_boundary :
  lookup_minimal_symbol_by_pc [library] 50%N = None ∧
  lookup_minimal_symbol_by_pc [library] 500%N = Some stub_text ∧
  lookup_minimal_symbol_by_pc [library] 650%N = Some stub_text.
Proof. by repeat split. Qed.

(** The search settles on the absolute symbol at 20 and walks back from
    there, past the text symbol of the same address. *)
Example absolute_before_text_of_same_address :
  lookup_minimal_symbol_by_pc [tied] 20%N = Some x_text ∧
  lookup_minimal_symbol_by_pc [tied] 25%N = Some a20_text.
Proof. by split. Qed.

Example trampoline_resolution :
  find_solib_trampoline_target [program; library] 10%N = 500%N.
Proof. reflexivity. Qed.

Example name_prefers_global :
  lookup_minimal_symbol (gdb := plain_gdb) [program; library] "stub" None None = Some stub_text.
Proof. reflexivity. Qed.

Example name_priority :
  lookup_minimal_symbol (gdb := plain_gdb) [module_a; module_b] "bar" None None
  = Some bar_text ∧
  lookup_minimal_symbol (gdb := plain_gdb) [module_b; module_a] "bar" None None
  = Some bar_text.
Proof. by split. Qed.

Example name_last_file_local_first_trampoline :
  lookup_minimal_symbol (gdb := plain_gdb) [module_c; module_b] "bar" None None
  = Some bar_file_data ∧
  lookup_minimal_symbol (gdb := plain_gdb) [module_c] "bar" None None
  = Some bar_stub1 ∧
  lookup_minimal_symbol (gdb := plain_gdb) [module_c] "baz" None None = None.
Proof. by repeat split. Qed.

(** ** Counterexamples to the statements that the code does not satisfy *)

(** C1 as stated.  If the earlier entry of a duplicate pair were the
    survivor, a text symbol followed by a data symbol of the same address
    and name would leave the text symbol; the pass leaves the data symbol. *)
Lemma compact_does_not_keep_earlier :
  sorted_by_address [foo_text; foo_data] ∧
  compacted [foo_text; foo_data] 2 = [foo_data] ∧
  compacted [foo_text; foo_data] 2 ≠ merge_adjacent_keep_earlier [foo_text; foo_data].
Proof.
  split; [|split; [reflexivity|by vm_compute]].
  repeat constructor; unfold address_le; simpl; lia.
Qed.

(** C2 as stated.  With a sort that leaves ties in their order, the two
    symbols "x" at address 100, kept apart by "y", both stay in the table. *)
Lemma install_keeps_separated_duplicates :
  let o' := install_symbols x_y_x plain_objfile in
  ∃ i j a b,
    i ≠ j ∧
    table_entries o' !! i = Some a ∧ table_entries o' !! j = Some b ∧
    SYMBOL_VALUE_ADDRESS a = SYMBOL_VALUE_ADDRESS b ∧
    SYMBOL_NAME a = SYMBOL_NAME b ∧ SYMBOL_NAME a = Some "x".
Proof.
  exists 0, 2. do 2 eexists. split; [done|].
  split; [reflexivity|]. split; [reflexivity|]. done.
Qed.

(** C6 as stated.  After 128 requests the gathered array does not hold
    the recorded symbols in recording order: the 128th comes first. *)
Lemma gather_not_in_recording_order :
  gather_minimal_symbols (gdb := plain_gdb) plain_objfile
    (record_symbols one_bunch_and_one plain_objfile)
  ≠ table_entries plain_objfile
    ++ (copy_in (get_symbol_leading_char (gdb := plain_gdb) (obfd plain_objfile))
        <$> (fill_slot <$> one_bunch_and_one)).
Proof.
  intros H. apply (f_equal head) in H. vm_compute in H. discriminate.
Qed.


(** C9 as stated.  On a target with a leading underscore the name
    "_gcc_compiled." is a marker name once the underscore is stripped, yet
    the symbol is recorded: the flag symbols are compared before any
    stripping. *)
Lemma prim_record_keeps_underscore_gcc_compiled :
  let r := mk_request "_gcc_compiled." 0%N mst_file_text 0%N 0%Z in
  let st := init_minimal_symbol_collection in
  req_ms_type r = mst_file_text ∧
  marker_name (gdb := plain_gdb)
    (skip_leading_char
       (get_symbol_leading_char (gdb := plain_gdb) (obfd underscore_objfile))
       (req_name r)) ∧
  prim_record_minimal_symbol_and_info (gdb := plain_gdb) r underscore_objfile st
  ≠ (st, None) ∧
  msym_count
    (fst (prim_record_minimal_symbol_and_info (gdb := plain_gdb) r
            underscore_objfile st)) = 1.
Proof.
  split; [done|]. split; [by left|]. split; [by vm_compute|reflexivity].
Qed.

(** A text symbol of the trampoline's name at address 0: the answer is 0,
    as it is when no text symbol has the name. *)
Lemma find_solib_trampoline_target_text_at_0 :
  lookup_minimal_symbol_by_pc [program; library_at_0] 10%N = Some stub_trampoline ∧
  MSYMBOL_TYPE stub_trampoline = mst_solib_trampoline ∧
  scan_order None 0 [program; library_at_0]
  = [stub_trampoline; a_text; b_abs] ++ stub_text_at_0 :: [] ∧
  text_match (SYMBOL_NAME stub_trampoline) stub_text_at_0 = true ∧
  (∀ x, x ∈ [stub_trampoline; a_text; b_abs] →
        text_match (SYMBOL_NAME stub_trampoline) x = false) ∧
  find_solib_trampoline_target [program; library_at_0] 10%N = 0%N ∧
  find_solib_trampoline_target [program] 10%N = 0%N.
Proof.
  split_and!; try reflexivity.
  intros x Hx. repeat (apply elem_of_cons in Hx as [->|Hx]; [reflexivity|]).
  by apply elem_of_nil in Hx.
Qed.

(** ** The theorems at concrete inputs *)

Lemma install_no_adjacent_duplicates_witness :
  0 < msym_count (record_symbols x_y_x plain_objfile) ∧
  ∀ i a b,
    table_entries (install_symbols x_y_x plain_objfile) !! i = Some a →
    table_entries (install_symbols x_y_x plain_objfile) !! S i = Some b →
    ¬ (SYMBOL_VALUE_ADDRESS a = SYMBOL_VALUE_ADDRESS b ∧
       ∃ n, SYMBOL_NAME a = Some n ∧ SYMBOL_NAME b = Some n).
Proof.
  split; [vm_compute; lia|].
  apply (install_no_adjacent_duplicates (libc := stable_qsort) (gdb := plain_gdb)).
  vm_compute; lia.
Defined.

Lemma install_sorted_by_address_witness :
  0 < msym_count (record_symbols one_bunch_and_one plain_objfile) ∧
  ∀ i a b,
    table_entries (install_symbols one_bunch_and_one plain_objfile) !! i = Some a →
    table_entries (install_symbols one_bunch_and_one plain_objfile) !! S i = Some b →
    (SYMBOL_VALUE_ADDRESS a ≤ SYMBOL_VALUE_ADDRESS b)%N.
Proof.
  split; [vm_compute; lia|].
  apply (install_sorted_by_address (libc := stable_qsort) (gdb := plain_gdb)).
  vm_compute; lia.
Defined.

Lemma lookup_minimal_symbol_by_pc_spec_witness :
  Forall searchable [program; library] ∧
  match lookup_minimal_symbol_by_pc [program; library] 250%N with
  | None => ∀ o, o ∈ [program; library] → pc_candidate 250%N o = None
  | Some best =>
      ∃ i o, [program; library] !! i = Some o ∧
        pc_candidate 250%N o = Some best ∧
        ∀ j o' c, [program; library] !! j = Some o' →
          pc_candidate 250%N o' = Some c →
          (SYMBOL_VALUE_ADDRESS c ≤ SYMBOL_VALUE_ADDRESS best)%N ∧
          (j < i → (SYMBOL_VALUE_ADDRESS c < SYMBOL_VALUE_ADDRESS best)%N)
  end.
Proof.
  split; [exact program_library_searchable|].
  exact (proj2 (lookup_minimal_symbol_by_pc_spec [program; library] 250%N
                  program_library_searchable)).
Defined.


Lemma prim_record_drops_compiler_markers_witness :
  let r := mk_request "___gnu_compiled_cplus" 0%N mst_file_text 0%N 0%Z in
  prim_record_minimal_symbol_and_info (gdb := plain_gdb) r underscore_objfile
    init_minimal_symbol_collection
  = (init_minimal_symbol_collection, None).
Proof.
  intros r.
  apply (prim_record_drops_compiler_markers (gdb := plain_gdb) r
           underscore_objfile init_minimal_symbol_collection).
  - reflexivity.
  - right. reflexivity.
Defined.

Lemma compact_minimal_symbols_keeps_later_witness :
  2 ≤ length [foo_text; foo_unknown; foo_data] ∧
  compacted [foo_text; foo_unknown; foo_data] 2
  = merge_adjacent (take 2 [foo_text; foo_unknown; foo_data]) ∧
  merge_adjacent (take 2 [foo_text; foo_unknown; foo_data])
  = [set_MSYMBOL_TYPE foo_unknown mst_text].
Proof.
  split; [simpl; lia|]. split; [|reflexivity].
  apply (compact_minimal_symbols_keeps_later [foo_text; foo_unknown; foo_data] 2).
  simpl; lia.
Defined.

Lemma install_minimal_symbols_null_symbol_witness :
  0 < msym_count (record_symbols foo_twice plain_objfile) ∧
  minimal_symbol_count (install_symbols foo_twice plain_objfile) = 1 ∧
  ∃ t z, msymbols (install_symbols foo_twice plain_objfile) = Some t ∧
         length t = 2 ∧
         t !! 1 = Some z ∧
         SYMBOL_NAME z = None ∧
         SYMBOL_VALUE_ADDRESS z = 0%N ∧
         MSYMBOL_TYPE z = mst_unknown ∧
         SYMBOL_SECTION z = 5%Z.
Proof.
  assert (H : 0 < msym_count (record_symbols foo_twice plain_objfile))
    by (vm_compute; lia).
  split; [exact H|]. split; [reflexivity|].
  destruct (install_minimal_symbols_null_symbol (libc := stable_qsort)
              (gdb := plain_gdb) plain_objfile
              (record_symbols foo_twice plain_objfile) H)
    as [(t & z & Ht & Hlen & Hz & Hname & Haddr & Htype & _ & _ & Hsect & _) _].
  exists t, z. split; [exact Ht|]. split; [exact Hlen|]. split; [exact Hz|].
  split; [exact Hname|]. split; [exact Haddr|]. split; [exact Htype|].
  rewrite Hsect. reflexivity.
Defined.

(** ** Further evaluations *)

Example source_file_selects_file_local :
  lookup_minimal_symbol (gdb := sofun_gdb) [module_d] "bar" (Some "src/a.c") None
  = Some bar_in_a_c ∧
  lookup_minimal_symbol (gdb := sofun_gdb) [module_d] "bar" (Some "b.c") None
  = Some bar_in_b_c ∧
  lookup_minimal_symbol (gdb := sofun_gdb) [module_d] "bar" (Some "c.c") None
  = None ∧
  lookup_minimal_symbol (gdb := plain_gdb) [module_d] "bar" (Some "src/a.c") None
  = Some bar_in_b_c.
Proof. by repeat split. Qed.

Example stab_function_address :
  find_stab_function_addr (gdb := sofun_gdb) [module_d] "bar:F(0,1)"
    (Some "/usr/src/b.c") None = 440%N ∧
  find_stab_function_addr (gdb := sofun_gdb) [module_d] "bar"
    (Some "/usr/src/b.c") None = 0%N.
Proof. by split. Qed.

Example restricted_to_one_objfile :
  lookup_minimal_symbol (gdb := plain_gdb) [module_a; module_c] "bar" None (Some 1)
  = Some bar_stub1 ∧
  lookup_minimal_symbol (gdb := plain_gdb) [module_a; module_c] "bar" None (Some 2)
  = None.
Proof. by split. Qed.

Example scrambled_lookup :
  lookup_minimal_symbol_by_pc [scrambled] 35%N = Some x_text ∧
  table_entries (msymbols_sort (libc := stable_qsort) scrambled)
  = [x_text; b20_abs; y_text] ∧
  lookup_minimal_symbol_by_pc [msymbols_sort (libc := stable_qsort) scrambled] 35%N
  = Some y_text.
Proof. by repeat split. Qed.

Lemma program_library_distinct : Forall distinct_addresses [program; library].
Proof.
  apply Forall_cons_2; [|apply Forall_cons_2; [|apply Forall_nil_2]];
    unfold distinct_addresses; refine (bool_decide_unpack _ _); vm_compute; exact I.
Defined.

Lemma scrambled_well_formed : Forall well_formed_table [scrambled].
Proof. apply Forall_cons_2; [|apply Forall_nil_2]. unfold well_formed_table. simpl. lia. Defined.

(** ** The further properties at concrete inputs *)

Lemma prim_record_appends_witness :
  ∃ msymbol st',
    prim_record_minimal_symbol_and_info (gdb := plain_gdb)
      (mk_request "_main" 4096%N mst_text 0%N 0%Z) underscore_objfile
      init_minimal_symbol_collection = (st', Some msymbol) ∧
    msymbol = mk_msymbol (Some "_main") 4096%N language_unknown None 0%Z 0%N None
                mst_text ∧
    msym_count st' = 1.
Proof.
  destruct (prim_record_appends (gdb := plain_gdb)
              (mk_request "_main" 4096%N mst_text 0%N 0%Z) underscore_objfile
              init_minimal_symbol_collection [])
    as (msymbol & st' & Hrun & Hm & Hcount & _).
  - unfold filled_by. simpl.
    split_and!; try reflexivity; intros b Hb; apply elem_of_nil in Hb; destruct Hb.
  - left. discriminate.
  - exists msymbol, st'. split; [exact Hrun|]. split; [exact Hm|exact Hcount].
Defined.

Lemma compact_minimal_symbols_count_witness :
  3 ≤ length [foo_text; foo_unknown; foo_data] ∧
  snd (compact_minimal_symbols [foo_text; foo_unknown; foo_data] 3) ≤ 3 ∧
  compacted (compacted [foo_text; foo_unknown; foo_data] 3)
    (snd (compact_minimal_symbols [foo_text; foo_unknown; foo_data] 3))
  = compacted [foo_text; foo_unknown; foo_data] 3.
Proof.
  assert (H : 3 ≤ length [foo_text; foo_unknown; foo_data]) by (simpl; lia).
  split; [exact H|].
  destruct (compact_minimal_symbols_count [foo_text; foo_unknown; foo_data] 3 H)
    as (_ & Hpos & _ & _ & Hidem & _).
  split; [|exact Hidem]. apply Hpos. lia.
Defined.

Lemma compact_run_of_duplicates_witness :
  compacted [foo_text; foo_data; foo_unknown] 3
  = [set_MSYMBOL_TYPE foo_unknown mst_data] ∧
  snd (compact_minimal_symbols [foo_text; foo_data; foo_unknown] 3) = 1.
Proof.
  apply (compact_run_of_duplicates [foo_text; foo_data; foo_unknown] foo_unknown
           4096%N "foo").
  - reflexivity.
  - repeat (apply Forall_cons_2; [split; reflexivity|]). apply Forall_nil_2.
Defined.

Lemma install_keeps_every_symbol_witness :
  0 < msym_count (record_symbols x_y_x plain_objfile) ∧
  (∀ x, x ∈ gather_minimal_symbols (gdb := plain_gdb) plain_objfile
              (record_symbols x_y_x plain_objfile) →
        ∃ y, y ∈ table_entries (install_symbols x_y_x plain_objfile) ∧
             same_symbol y x) ∧
  minimal_symbol_count (install_symbols x_y_x plain_objfile) ≤ 3.
Proof.
  assert (H : 0 < msym_count (record_symbols x_y_x plain_objfile))
    by (vm_compute; lia).
  split; [exact H|].
  destruct (install_keeps_every_symbol (libc := stable_qsort) (gdb := plain_gdb)
              plain_objfile (record_symbols x_y_x plain_objfile) H)
    as (Hkeep & _ & _ & Hcount).
  split; [exact Hkeep|exact Hcount].
Defined.

Lemma install_recorded_searchable_witness :
  0 < msym_count (record_symbols x_y_x plain_objfile) ∧
  searchable (install_symbols x_y_x plain_objfile) ∧
  1 ≤ minimal_symbol_count (install_symbols x_y_x plain_objfile).
Proof.
  assert (H : 0 < msym_count (record_symbols x_y_x plain_objfile))
    by (vm_compute; lia).
  split; [exact H|].
  destruct (install_recorded_searchable (libc := stable_qsort) (gdb := plain_gdb)
              x_y_x plain_objfile H)
    as (Hsearch & [Hone _] & _).
  split; [exact Hsearch|exact Hone].
Defined.

Lemma lookup_minimal_symbol_by_pc_safe_witness :
  Forall well_formed_table [scrambled] ∧
  ∀ m, lookup_minimal_symbol_by_pc [scrambled] 35%N = Some m →
       (∃ o, o ∈ [scrambled] ∧ m ∈ table_entries o) ∧ MSYMBOL_TYPE m ≠ mst_abs.
Proof.
  split; [exact scrambled_well_formed|].
  exact (proj1 (proj2 (lookup_minimal_symbol_by_pc_safe [scrambled] 35%N
                         scrambled_well_formed))).
Defined.

Lemma lookup_minimal_symbol_by_pc_greatest_witness :
  Forall searchable [program; library] ∧
  Forall distinct_addresses [program; library] ∧
  lookup_minimal_symbol_by_pc [program; library] 250%N = Some a_text ∧
  ∀ o x, o ∈ [program; library] → x ∈ table_entries o →
         MSYMBOL_TYPE x ≠ mst_abs → (SYMBOL_VALUE_ADDRESS x ≤ 250)%N →
         (SYMBOL_VALUE_ADDRESS x ≤ SYMBOL_VALUE_ADDRESS a_text)%N.
Proof.
  split; [exact program_library_searchable|].
  split; [exact program_library_distinct|].
  split; [reflexivity|].
  exact (proj2 (proj2 (proj2
           (lookup_minimal_symbol_by_pc_greatest [program; library] 250%N
              program_library_searchable program_library_distinct)))).
Defined.

Lemma lookup_minimal_symbol_after_install_witness :
  ∃ m,
    lookup_minimal_symbol (gdb := plain_gdb)
      [install_symbols main_etext_counter underscore_objfile] "counter" None None
    = Some m ∧
    SYMBOL_NAME m = Some "counter".
Proof.
  refine (lookup_minimal_symbol_after_install (libc := stable_qsort)
            (gdb := plain_gdb) main_etext_counter underscore_objfile
            (mk_request "_counter" 8200%N mst_data 0%N 1%Z) None _ _ _ _ _).
  - apply Forall_nil_2.
  - do 2 apply list_elem_of_further. apply list_elem_of_here.
  - reflexivity.
  - discriminate.
  - left. reflexivity.
Defined.

Lemma program_library_distinct_in_registry :
  distinct_in_registry [program; library].
Proof.
  unfold distinct_in_registry. refine (bool_decide_unpack _ _). vm_compute. exact I.
Defined.

Lemma lookup_minimal_symbol_by_pc_registry_order_witness :
  lookup_minimal_symbol_by_pc [program; library] 250%N
  = lookup_minimal_symbol_by_pc [library; program] 250%N.
Proof.
  apply (lookup_minimal_symbol_by_pc_registry_order [program; library]
           [library; program] 250%N).
  - apply perm_swap.
  - exact program_library_searchable.
  - exact program_library_distinct_in_registry.
Defined.

Lemma lookup_minimal_symbol_by_pc_range_witness :
  lookup_minimal_symbol_by_pc [program; library] 100%N = Some a_text ∧
  ∀ pc', (100 ≤ pc')%N → (pc' ≤ 250)%N →
         lookup_minimal_symbol_by_pc [program; library] pc' = Some a_text.
Proof.
  destruct (lookup_minimal_symbol_by_pc_range [program; library] 250%N a_text
              program_library_searchable program_library_distinct_in_registry
              eq_refl) as (Hown & Hrange & _).
  split; [exact Hown|exact Hrange].
Defined.
